(** * marxs.optics.aperture: apertures of the MARXS X-ray ray tracer

    A shallow embedding of [marxs/optics/aperture.py] together with the
    tube and pixel-grid behaviour pinned down by
    [marxs/optics/tests/test_detector.py].

    Conventions of the embedding.
    - Python floats are idealised as real numbers ([R]); rounding, overflow
      and NaN payloads of IEEE arithmetic are outside the model.  Where the
      program uses NaN as a "no value" sentinel the model uses [None].
    - The global numpy random state is an explicit stream of uniform draws
      ([Rng]) threaded through every sampling call.
    - An astropy [Table] is a row count together with a finite map from
      column names to columns.
    - Python exceptions are values of [Exn]; a call either returns or
      raises ([Result]). *)

From Stdlib Require Import QArith Qround Qabs Lqa.
From Stdlib Require Import Reals Lra Lia.
From stdpp Require Import gmap strings list.

Local Open Scope R_scope.

(** ** Exceptions and results *)

Inductive Exn :=
| KeyError
| ValueError
| TypeError
| GeometryError
| NotImplementedError.

Inductive Result (A : Type) :=
| Ok (a : A)
| Raise (e : Exn).
Arguments Ok {A} a.
Arguments Raise {A} e.

#[global] Instance result_ret : MRet Result := λ A a, Ok a.
#[global] Instance result_bind : MBind Result := λ A B k r,
  match r with
  | Ok a => k a
  | Raise e => Raise e
  end.

(** ** Decidable comparisons on reals *)

#[global] Instance Rle_decision (x y : R) : Decision (x <= y) := Rle_dec x y.
#[global] Instance Rlt_decision (x y : R) : Decision (x < y) := Rlt_dec x y.
#[global] Instance Req_decision : EqDecision R := Req_dec_T.

(** ** numpy primitives used by the source *)

Module Numpy.

(** Homogeneous 4-vectors: rows of the [(n, 4)] arrays [pos] and [dir]. *)
Record Vec4 := mkVec4 { vx : R; vy : R; vz : R; vw : R }.

Definition vadd (a b : Vec4) : Vec4 :=
  mkVec4 (vx a + vx b) (vy a + vy b) (vz a + vz b) (vw a + vw b).

Definition vscale (s : R) (a : Vec4) : Vec4 :=
  mkVec4 (s * vx a) (s * vy a) (s * vz a) (s * vw a).

Definition vneg (a : Vec4) : Vec4 :=
  mkVec4 (- vx a) (- vy a) (- vz a) (- vw a).

(** [np.dot] of two 4-vectors. *)
Definition dot (a b : Vec4) : R :=
  vx a * vx b + vy a * vy b + vz a * vz b + vw a * vw b.

(** [np.linalg.norm]. *)
Definition norm (a : Vec4) : R := sqrt (dot a a).

(** [np.clip(x, lo, hi)] is [minimum(hi, maximum(x, lo))]. *)
Definition clip (x lo hi : R) : R := Rmin hi (Rmax x lo).

(** [np.isclose(a, b)] with the default tolerances
    [rtol = 1e-5], [atol = 1e-8]. *)
Definition rtol : R := / 100000.
Definition atol : R := / 100000000.
Definition isclose (a b : R) : bool :=
  bool_decide (Rabs (a - b) <= atol + rtol * Rabs b).

(** The random state: the stream of uniform draws still to come. *)
Definition Rng := nat → R.

(** Every draw of the generator lies in the half-open unit interval. *)
Definition unit_draws (g : Rng) : Prop := ∀ k, 0 <= g k < 1.

(** [np.random.random(n)] / [np.random.rand(n)]: the next [n] draws. *)
Definition random (n : nat) (g : Rng) : list R * Rng :=
  (g <$> seq 0 n, λ k, g (n + k)%nat).

(** [np.random.uniform(low, high, n)]: [low + (high - low) * u]. *)
Definition uniform (low high : R) (n : nat) (g : Rng) : list R * Rng :=
  let '(us, g') := random n g in
  ((λ u, low + (high - low) * u) <$> us, g').

(** [np.cumsum], with the running total made explicit. *)
Fixpoint cumsum_from (acc : R) (l : list R) : list R :=
  match l with
  | [] => []
  | a :: l' => (acc + a) :: cumsum_from (acc + a) l'
  end.
Definition cumsum (l : list R) : list R := cumsum_from 0 l.

(** [sum] of an array. *)
Definition rsum (l : list R) : R := foldr Rplus 0 l.

(** Monotonicity test of [np.digitize]: [1] for non-decreasing bins,
    [-1] for non-increasing ones, [0] otherwise. *)
Fixpoint nondecreasing (l : list R) : bool :=
  match l with
  | a :: (b :: _) as l' => bool_decide (a <= b) && nondecreasing l'
  | _ => true
  end.
Fixpoint nonincreasing (l : list R) : bool :=
  match l with
  | a :: (b :: _) as l' => bool_decide (b <= a) && nonincreasing l'
  | _ => true
  end.

(** [np.searchsorted(bins, x, side='right')] on sorted bins: the number of
    leading bins that are [<= x]. *)
Fixpoint searchsorted_right (bins : list R) (x : R) : nat :=
  match bins with
  | [] => 0
  | b :: bs => if bool_decide (b <= x) then S (searchsorted_right bs x) else 0%nat
  end.

(** [np.digitize(xs, bins)] with [right=False]. *)
Definition digitize (xs bins : list R) : Result (list nat) :=
  if nondecreasing bins then
    Ok (searchsorted_right bins <$> xs)
  else if nonincreasing bins then
    Ok ((λ x, (length bins - searchsorted_right (reverse bins) x)%nat) <$> xs)
  else Raise ValueError.

(** Boolean-mask indexing [a[mask]]. *)
Fixpoint mask_select {A} (mask : list bool) (l : list A) : list A :=
  match mask, l with
  | b :: mask', a :: l' =>
      if b then a :: mask_select mask' l' else mask_select mask' l'
  | _, _ => []
  end.

End Numpy.
Import Numpy.

(** ** The photon table (astropy [Table]) *)

Module Photons.

(** A column holds one float per row or one 4-vector per row. *)
Inductive Column :=
| ColScalar (l : list R)
| ColVec (l : list Vec4).

(** [nrows] is [len(table)]. *)
Record Table := mkTable { nrows : nat; cols : gmap string Column }.

(** [table[name]]; a missing column raises [KeyError]. *)
Definition get_col (name : string) (t : Table) : Result Column :=
  match cols t !! name with
  | Some c => Ok c
  | None => Raise KeyError
  end.

(** [table[name] = column]: replaces the column or appends a new one. *)
Definition set_col (name : string) (c : Column) (t : Table) : Table :=
  mkTable (nrows t) (<[name := c]> (cols t)).

(** [table[name] = value] with a scalar broadcast over all rows. *)
Definition set_col_scalar (name : string) (v : R) (t : Table) : Table :=
  set_col name (ColScalar (replicate (nrows t) v)) t.

Definition col_select (mask : list bool) (c : Column) : Column :=
  match c with
  | ColScalar l => ColScalar (mask_select mask l)
  | ColVec l => ColVec (mask_select mask l)
  end.

Definition count_true (mask : list bool) : nat :=
  length (filter (λ b, b = true) mask).

(** [table[mask]]: a new table with the rows where the mask is true. *)
Definition select (mask : list bool) (t : Table) : Table :=
  mkTable (count_true mask) (col_select mask <$> cols t).

End Photons.
Import Photons.

(** ** Apertures ([marxs/optics/aperture.py]) *)

Module Aperture.

(** [BaseAperture.add_colpos]: appends a ['pos'] column whose rows are
    zero ([table.Column(length=n, shape=(4,))]) with the fourth entry set
    to 1.  [Table.add_column] refuses a name that is already taken.  The
    Python method changes the table in place; the model returns it. *)
Definition add_colpos (photons : Table) : Result Table :=
  match cols photons !! "pos" with
  | Some _ => Raise ValueError
  | None =>
      Ok (set_col "pos" (ColVec (replicate (nrows photons) (mkVec4 0 0 0 1)))
            photons)
  end.

(** What an aperture inherits from [FlatOpticalElement]: the frame of its
    geometry ([center], surface normal [e_x], scaled in-plane vectors [v_y]
    and [v_z]), the names of the local-coordinate columns, the optional id
    column, and the inherited method [add_output_cols], whose body is not
    part of this module and is therefore a field here. *)
Record FlatOpticalElement := mkElement {
  center : Vec4;
  e_x : Vec4;
  v_y : Vec4;
  v_z : Vec4;
  loc_coos_name : option (string * string);
  id_col : option string;
  id_num : R;
  output_columns : list string;
  add_output_cols : Table → option (string * string) → Table
}.

(** The two concrete flat apertures.  [r_inner] and [phi] are the extra
    entries of a [CircularHole] geometry. *)
Inductive FlatAperture :=
| RectangleAperture (el : FlatOpticalElement)
| CircleAperture (el : FlatOpticalElement) (r_inner : R) (phi : R * R).

Definition element (ap : FlatAperture) : FlatOpticalElement :=
  match ap with
  | RectangleAperture el => el
  | CircleAperture el _ _ => el
  end.

(** [CircleAperture.__init__], after the inherited constructor has built
    the geometry. *)
Definition CircleAperture_init (el : FlatOpticalElement) (r_inner : R)
    (phi : R * R) : Result FlatAperture :=
  if bool_decide (r_inner > norm (v_y el)) then Raise ValueError
  else if negb (isclose (norm (v_y el)) (norm (v_z el))) then Raise GeometryError
  else Ok (CircleAperture el r_inner phi).

(** [generate_local_xy(n)] of [RectangleAperture] and [CircleAperture]. *)
Definition generate_local_xy (ap : FlatAperture) (n : nat) (g : Rng)
    : list R * list R * Rng :=
  match ap with
  | RectangleAperture _ =>
      let '(u1, g1) := random n g in
      let x := (λ u, u * 2 - 1) <$> u1 in
      let '(u2, g2) := random n g1 in
      let y := (λ u, u * 2 - 1) <$> u2 in
      (x, y, g2)
  | CircleAperture el r_inner phi =>
      let '(phis, g1) := uniform phi.1 phi.2 n g in
      let r_in := r_inner / norm (v_y el) in
      let '(r2, g2) := uniform (r_in ^ 2) 1 n g1 in
      let r := sqrt <$> r2 in
      let x := zip_with (λ r p, r * cos p) r phis in
      let y := zip_with (λ r p, r * sin p) r phis in
      (x, y, g2)
  end.

(** The affine local-to-global map of line 68:
    [center + x * v_y + y * v_z]. *)
Definition to_global (el : FlatOpticalElement) (x y : R) : Vec4 :=
  vadd (vadd (center el) (vscale x (v_y el))) (vscale y (v_z el)).

(** [FlatAperture.__call__]. *)
Definition call (ap : FlatAperture) (photons : Table) (g : Rng)
    : Result (Table * Rng) :=
  let el := element ap in
  let photons := add_output_cols el photons (loc_coos_name el) in
  let photons :=
    match id_col el with
    | Some c => set_col_scalar c (id_num el) photons
    | None => photons
    end in
  let '(x, y, g') := generate_local_xy ap (nrows photons) g in
  let photons :=
    match loc_coos_name el with
    | Some (cx, cy) => set_col cy (ColScalar y) (set_col cx (ColScalar x) photons)
    | None => photons
    end in
  let photons := set_col "pos" (ColVec (zip_with (to_global el) x y)) photons in
  dir ← get_col "dir" photons;
  match dir with
  | ColVec ds =>
      let projected_area := (λ d, dot d (vneg (e_x el))) <$> ds in
      prob ← get_col "probability" photons;
      match prob with
      | ColScalar ps =>
          let ps' := zip_with Rmult ps ((λ a, clip a 0 1) <$> projected_area) in
          Ok (set_col "probability" (ColScalar ps') photons, g')
      | ColVec _ => Raise ValueError
      end
  | ColScalar _ => Raise ValueError
  end.

(** [FlatAperture.process_photons].  The first component is the batch
    object as the call leaves it, the second what the call produces. *)
Definition process_photons (ap : FlatAperture) (photons : Table)
    : Table * Result Table :=
  (photons, Raise NotImplementedError).

(** The [area] property of the two flat apertures (in mm²). *)
Definition area (ap : FlatAperture) : R :=
  match ap with
  | RectangleAperture el => 4 * norm (v_y el) * norm (v_z el)
  | CircleAperture el r_inner phi =>
      let A_circ := PI * (norm (v_y el) ^ 2 - r_inner ^ 2) in
      (phi.2 - phi.1) / (2 * PI) * A_circ
  end.

(** *** MultiAperture *)

(** Anything that processes photons: an optical element call or a
    pre/post-processing step.  A step mutates the batch it is given; the
    model returns the batch after the mutation. *)
Definition Proc := Table → Rng → Result (Table * Rng).

(** A sub-aperture as [MultiAperture] uses it: its [area] and its call. *)
Record Element := mkElem { elem_area : R; elem_call : Proc }.

Definition as_element (ap : FlatAperture) : Element :=
  mkElem (area ap) (call ap).

Record MultiAperture := mkMulti {
  elements : list Element;
  multi_id_col : option string;
  preprocess_steps : list Proc;
  postprocess_steps : list Proc
}.

(** [MultiAperture.area]. *)
Definition multi_area (ma : MultiAperture) : R :=
  rsum (elem_area <$> elements ma).

Fixpoint run_steps (steps : list Proc) (t : Table) (g : Rng)
    : Result (Table * Rng) :=
  match steps with
  | [] => Ok (t, g)
  | p :: steps' => '(t', g') ← p t g; run_steps steps' t' g'
  end.

(** The mask [aperid == i]. *)
Definition id_mask (aperid : list nat) (i : nat) : list bool :=
  (λ a, bool_decide (a = i)) <$> aperid.

(** The loop of lines 199-206, from index [i] on. *)
Fixpoint dispatch (ma : MultiAperture) (i : nat) (elems : list Element)
    (aperid : list nat) (photons : Table) (g : Rng)
    : Result (list Table * Rng) :=
  match elems with
  | [] => Ok ([], g)
  | elem :: elems' =>
      let thisphot := select (id_mask aperid i) photons in
      '(t1, g1) ← run_steps (preprocess_steps ma) thisphot g;
      '(t2, g2) ← elem_call elem t1 g1;
      '(t3, g3) ← run_steps (postprocess_steps ma) t2 g2;
      '(outs, g4) ← dispatch ma (S i) elems' aperid photons g3;
      Ok (t3 :: outs, g4)
  end.

(** The bins of line 193: [np.cumsum(areas) / self.area]. *)
Definition area_bins (ma : MultiAperture) : list R :=
  (λ c, c / multi_area ma) <$> cumsum (elem_area <$> elements ma).

Section Stack.

(** [astropy.table.vstack], a library function the module only calls. *)
Variable vstack : list Table → Result Table.

(** [MultiAperture.__call__]. *)
Definition multi_call (ma : MultiAperture) (photons : Table) (g : Rng)
    : Result (Table * Rng) :=
  let '(us, g1) := random (nrows photons) g in
  aperid ← digitize us (area_bins ma);
  let photons :=
    match multi_id_col ma with
    | Some c => set_col c (ColScalar (INR <$> aperid)) photons
    | None => photons
    end in
  '(outs, g2) ← dispatch ma 0 (elements ma) aperid photons g1;
  res ← vstack outs;
  Ok (res, g2).

End Stack.

End Aperture.
Import Aperture.

(** ** Detectors ([marxs/optics/detector.py], known here through its tests) *)

Module Detector.

(** *** Pixel grid of a flat detector *)

(** Modelled from the spec: the [round] of the pixel count, which is part
    of the missing [FlatDetector] constructor: rounding to the nearest
    integer, ties to the even neighbour as Python's [round] and [np.round]
    do. *)
Definition round_nearest (q : Q) : Z :=
  let f := Qfloor q in
  match (q - inject_Z f ?= 1 # 2)%Q with
  | Lt => f
  | Gt => (f + 1)%Z
  | Eq => if Z.even f then f else (f + 1)%Z
  end.

(** A flat detector as its constructor is called in the tests: a zoom per
    axis and a pixel size. *)
Record FlatDetector := mkFlatDetector { zoom : Q * Q * Q; pixsize : Q }.

(** Modelled from the spec: the pixel count of [FlatDetector] along one
    axis, [npix = round(2 * scale / pixsize)]; the constructor is not among
    the sources. *)
Definition npix_axis (scale pixsize : Q) : Z :=
  round_nearest (2 * scale / pixsize)%Q.

(** Modelled from the spec: the central pixel of [FlatDetector] along one
    axis, [centerpix = (npix - 1) / 2]; the constructor is not among the
    sources. *)
Definition centerpix_axis (n : Z) : Q := ((inject_Z n - 1) / 2)%Q.

(** Modelled from the spec: [FlatDetector.npix], one count per in-plane
    axis, whose scales are the second and third entries of [zoom]; the
    constructor is not among the sources. *)
Definition npix (d : FlatDetector) : list Z :=
  let '(_, zoom_y, zoom_z) := zoom d in
  [npix_axis zoom_y (pixsize d); npix_axis zoom_z (pixsize d)].

(** Modelled from the spec: [FlatDetector.centerpix]; the constructor is
    not among the sources. *)
Definition centerpix (d : FlatDetector) : list Q := centerpix_axis <$> npix d.

(** *** Ray/tube intersection of a circular detector *)

(** The placement of the tube: origin, axis direction [e_x], the two
    radial directions [e_y] and [e_z], the zoom along each, the side that
    is hit and the angular offset. *)
Record Tube := mkTube {
  origin : Vec4;
  e_x : Vec4;
  e_y : Vec4;
  e_z : Vec4;
  s_x : R;
  s_y : R;
  s_z : R;
  inside : bool;
  phi_offset : R
}.

(** What [intersect] reports for one ray; [None] stands for a NaN-filled
    field. *)
Record Intersection := mkIntersection {
  hit : bool;
  globalPoint : option Vec4;
  localCoords : option (R * R)
}.

Definition miss : Intersection := mkIntersection false None None.

Definition vsub (a b : Vec4) : Vec4 := vadd a (vneg b).

(** Modelled from the spec: the tube radius [R = norm(e_y * scale)] used
    by the missing [CircularDetector.intersect]. *)
Definition radius (tb : Tube) : R := norm (vscale (s_y tb) (e_y tb)).

(** Modelled from the spec: the projection into the plane perpendicular
    to the axis done by the missing [CircularDetector.intersect], as the
    squared distance of a point from the axis in that plane. *)
Definition radial_dist2 (tb : Tube) (p : Vec4) : R :=
  dot (vsub p (origin tb)) (e_y tb) ^ 2 + dot (vsub p (origin tb)) (e_z tb) ^ 2.

(** Modelled from the spec: the coefficients of the quadratic
    [a t² + b t + c = 0] that the missing [CircularDetector.intersect]
    forms for the ray [pos + t dir] projected into that plane, and its
    discriminant. *)
Definition quad_a (tb : Tube) (dir : Vec4) : R :=
  dot dir (e_y tb) ^ 2 + dot dir (e_z tb) ^ 2.
Definition quad_b (tb : Tube) (dir pos : Vec4) : R :=
  2 * (dot (vsub pos (origin tb)) (e_y tb) * dot dir (e_y tb)
       + dot (vsub pos (origin tb)) (e_z tb) * dot dir (e_z tb)).
Definition quad_c (tb : Tube) (pos : Vec4) : R :=
  radial_dist2 tb pos - radius tb ^ 2.
Definition discriminant (tb : Tube) (dir pos : Vec4) : R :=
  quad_b tb dir pos ^ 2 - 4 * quad_a tb dir * quad_c tb pos.

(** [atan2(y, x)]. *)
Definition atan2 (y x : R) : R :=
  if bool_decide (0 < x) then atan (y / x)
  else if bool_decide (x < 0) then
    (if bool_decide (0 <= y) then atan (y / x) + PI else atan (y / x) - PI)
  else if bool_decide (0 < y) then PI / 2
  else if bool_decide (y < 0) then - (PI / 2)
  else 0.

(** Modelled from the spec: the axial local coordinate of a point, used by
    the missing [CircularDetector.intersect]: the displacement along [e_x]
    from the origin, scaled by [1 / s_x]. *)
Definition axial_coord (tb : Tube) (p : Vec4) : R :=
  dot (vsub p (origin tb)) (e_x tb) / s_x tb.

(** Modelled from the spec: the membership test of a tube, "always true
    within axial bounds", which the missing [CircularDetector.intersect]
    applies to the local coordinates; as for the other shapes the local
    coordinate is normalized to the scale, so the bounds are [-1] and [1].
    [test_intersect_tube_miss] and [test_intersect_tube_2points] agree: a
    ray reaching the wall at an axial displacement of 1.2 misses a tube of
    axial zoom 1 and hits one of axial zoom 2. *)
Definition within_axial_bounds (v : R) : bool := bool_decide (Rabs v <= 1).

(** Modelled from the spec: the root the missing
    [CircularDetector.intersect] selects of the two real roots
    [t1 <= t2]: the larger one for the inside of the tube, the smaller one
    for the outside. *)
Definition chosen_root (tb : Tube) (dir pos : Vec4) : R :=
  let a := quad_a tb dir in
  let b := quad_b tb dir pos in
  let disc := discriminant tb dir pos in
  let t1 := (- b - sqrt disc) / (2 * a) in
  let t2 := (- b + sqrt disc) / (2 * a) in
  if inside tb then t2 else t1.

Section Intersect.

(** Three things the description leaves open are parameters: how small
    [a] must be to count as zero, which ray parameters count as forward,
    and how the angular coordinate is normalized. *)
Variable tol : R.
Variable in_range : Tube → Vec4 → Vec4 → R → bool.
Variable wrap : R → R.

(** Modelled from the spec: [CircularDetector.intersect] for one ray,
    whose body is not among the sources.  A ray without radial direction
    component ([a ≈ 0]) misses; a negative discriminant misses; of the two
    roots the larger is taken for the inside of the tube and the smaller
    for the outside; a root that is not in the forward range, or whose
    point lies outside the axial bounds of the tube, misses; a miss has
    all outputs NaN.  For a hit the local coordinates are the angle
    [atan2] of the radial components minus [phi_offset], normalized, and
    the displacement along the axis scaled by [1 / s_x]. *)
Definition intersect (tb : Tube) (dir pos : Vec4) : Intersection :=
  let a := quad_a tb dir in
  let disc := discriminant tb dir pos in
  if bool_decide (a <= tol) then miss
  else if bool_decide (disc < 0) then miss
  else
    let t := chosen_root tb dir pos in
    let p := vadd pos (vscale t dir) in
    let axial := axial_coord tb p in
    if in_range tb dir pos t && within_axial_bounds axial then
      let rel := vsub p (origin tb) in
      let angle := wrap (atan2 (dot rel (e_z tb)) (dot rel (e_y tb)) - phi_offset tb) in
      mkIntersection true (Some p) (Some (angle, axial))
    else miss.

End Intersect.

End Detector.

(** ** Specification vocabulary *)

(** The inherited [add_output_cols] only appends columns: it keeps the row
    count and every existing column, and a column it adds is one of the
    element's output columns or one of the names it was given. *)
Definition requested (names : option (string * string)) (c : string) : Prop :=
  match names with
  | Some (cx, cy) => c = cx ∨ c = cy
  | None => False
  end.

Definition base_contract (el : FlatOpticalElement) : Prop :=
  ∀ t names,
    nrows (add_output_cols el t names) = nrows t ∧
    (∀ c col, cols t !! c = Some col →
       cols (add_output_cols el t names) !! c = Some col) ∧
    (∀ c, cols t !! c = None → is_Some (cols (add_output_cols el t names) !! c) →
       c ∈ output_columns el ∨ requested names c).

(** The element's own column names do not collide with the core columns
    it reads and writes. *)
Definition names_ok (el : FlatOpticalElement) : Prop :=
  (∀ c, id_col el = Some c → c ≠ "dir" ∧ c ≠ "probability") ∧
  (∀ cx cy, loc_coos_name el = Some (cx, cy) →
     cx ≠ cy ∧
     cx ≠ "pos" ∧ cx ≠ "dir" ∧ cx ≠ "probability" ∧
     cy ≠ "pos" ∧ cy ≠ "dir" ∧ cy ≠ "probability").

(** A batch with the direction and probability columns the call reads. *)
Definition batch_ok (t : Table) (ds : list Vec4) (ps : list R) : Prop :=
  cols t !! "dir" = Some (ColVec ds) ∧
  cols t !! "probability" = Some (ColScalar ps) ∧
  length ds = nrows t ∧ length ps = nrows t.

(** The cosine factor of lines 69-72. *)
Definition cos_factor (el : FlatOpticalElement) (d : Vec4) : R :=
  clip (dot d (vneg (e_x el))) 0 1.

(** The table [FlatAperture.__call__] builds, step by step. *)
Definition with_id (el : FlatOpticalElement) (t : Table) : Table :=
  match id_col el with
  | Some c => set_col_scalar c (id_num el) t
  | None => t
  end.

Definition with_local (el : FlatOpticalElement) (x y : list R) (t : Table) : Table :=
  match loc_coos_name el with
  | Some (cx, cy) => set_col cy (ColScalar y) (set_col cx (ColScalar x) t)
  | None => t
  end.

Definition positioned (el : FlatOpticalElement) (x y : list R) (t : Table) : Table :=
  set_col "pos" (ColVec (zip_with (to_global el) x y))
    (with_local el x y (with_id el (add_output_cols el t (loc_coos_name el)))).


(** ** Concrete instances used to exercise the theorems *)

(** An instance of the inherited [add_output_cols]: every requested column
    that is missing is appended, filled with a placeholder value. *)
Definition fill_missing (names : list string) (t : Table) : Table :=
  foldr (λ c t', match cols t' !! c with
                 | Some _ => t'
                 | None => set_col_scalar c 0 t'
                 end) t names.

Definition name_list (names : option (string * string)) : list string :=
  match names with
  | Some (cx, cy) => [cx; cy]
  | None => []
  end.

Definition add_cols_fill (out : list string) (t : Table)
    (names : option (string * string)) : Table :=
  fill_missing (out ++ name_list names) t.

(** A unit square in the y-z plane at the origin, facing along -x. *)
Definition unit_square : FlatOpticalElement :=
  mkElement (mkVec4 0 0 0 1) (mkVec4 1 0 0 0) (mkVec4 0 1 0 0) (mkVec4 0 0 1 0)
    (Some ("y", "z")) None 0 [] (add_cols_fill []).

(** Two photons: one entering through the front, one through the back. *)
Definition two_photons : Table :=
  mkTable 2 (<["dir" := ColVec [mkVec4 (-1) 0 0 0; mkVec4 1 0 0 0]]>
            (<["probability" := ColScalar [1; / 2]]> ∅)).

Definition quarter_rng : Rng := λ _, / 4.

(** One photon that already carries a local-coordinate column ["y"], as a
    batch has after an earlier pass through a flat element. *)
Definition seen_photon : Table :=
  mkTable 1 (<["dir" := ColVec [mkVec4 (-1) 0 0 0]]>
            (<["probability" := ColScalar [1]]>
            (<["y" := ColScalar [7]]> ∅))).

(** The frame of a flat aperture call as the element contract words it:
    same length; of the existing columns only ['pos'], ['probability'] and
    the id column change; only local-coordinate and id columns are new. *)
Definition frame_as_stated (el : FlatOpticalElement) (t t' : Table) : Prop :=
  nrows t' = nrows t ∧
  (∀ c col, cols t !! c = Some col →
     c ≠ "pos" → c ≠ "probability" → Some c ≠ id_col el →
     cols t' !! c = Some col) ∧
  (∀ c, cols t !! c = None → is_Some (cols t' !! c) →
     requested (loc_coos_name el) c ∨ Some c = id_col el).

(** A rectangle twice as long in z as in y. *)
Definition wide_rectangle : FlatOpticalElement :=
  mkElement (mkVec4 0 0 0 1) (mkVec4 1 0 0 0) (mkVec4 0 1 0 0) (mkVec4 0 0 2 0)
    (Some ("y", "z")) None 0 [] (add_cols_fill []).

Definition full_circle : R * R := (0, 2 * PI).

(** *** Vocabulary for [MultiAperture] *)

(** The areas [A_0 .. A_(k-1)] of the sub-apertures, their total, and the
    cumulative area below sub-aperture [i], that is [cumsum(A)[i-1]] with
    the convention [cumsum(A)[-1] = 0]. *)
Definition areas (ma : MultiAperture) : list R := elem_area <$> elements ma.
Definition cum_area (ma : MultiAperture) (i : nat) : R := rsum (take i (areas ma)).

(** The batch after line 197: the input with the id column written. *)
Definition tagged (ma : MultiAperture) (aperid : list nat) (photons : Table) : Table :=
  match multi_id_col ma with
  | Some c => set_col c (ColScalar (INR <$> aperid)) photons
  | None => photons
  end.


(** An instance of [vstack] for tables that all have the same columns:
    the columns are concatenated group after group.  Tables with different
    columns, which astropy joins with masked entries, are outside this
    instance. *)
Definition col_is_scalar (c : Column) : bool :=
  match c with
  | ColScalar _ => true
  | ColVec _ => false
  end.

Definition col_append (a b : Column) : option Column :=
  match a, b with
  | ColScalar x, ColScalar y => Some (ColScalar (x ++ y))
  | ColVec x, ColVec y => Some (ColVec (x ++ y))
  | _, _ => None
  end.

Definition stack2 (a b : Table) : Result Table :=
  if bool_decide (col_is_scalar <$> cols a = col_is_scalar <$> cols b) then
    Ok (mkTable (nrows a + nrows b) (union_with col_append (cols a) (cols b)))
  else Raise ValueError.

Fixpoint vstack_uniform (ts : list Table) : Result Table :=
  match ts with
  | [] => Raise ValueError
  | t :: ts' =>
      match ts' with
      | [] => Ok t
      | _ => rest ← vstack_uniform ts'; stack2 t rest
      end
  end.

(** Two sub-apertures of areas 1 and 3 that pass their photons on, and a
    generator whose first draw is 1/8 and whose later draws are 1/2. *)
Definition pass_on : Proc := λ t g, Ok (t, g).
Definition two_apertures : MultiAperture :=
  mkMulti [mkElem 1 pass_on; mkElem 3 pass_on] (Some "aperture") [] [].
Definition split_rng : Rng := λ k, match k with O => / 8 | S _ => / 2 end.

(** *** Instances for the detector tests *)

(** [FlatDetector(zoom=[1, 10, 5], pixsize=0.5)] and
    [FlatDetector(pixsize=0.05)] of [test_pixelnumbers]. *)
Definition det_zoomed : Detector.FlatDetector :=
  Detector.mkFlatDetector (1, 10, 5)%Q (1 # 2)%Q.
Definition det_fine : Detector.FlatDetector :=
  Detector.mkFlatDetector (1, 1, 1)%Q (1 # 20)%Q.

(** The tube the tests build with [CircularDetector(position=o)]: radius 1
    and axial half-length 1 around the z axis through [o], hit from the
    inside. *)
Definition tube_at (o : Vec4) : Detector.Tube :=
  Detector.mkTube o (mkVec4 0 0 1 0) (mkVec4 1 0 0 0) (mkVec4 0 1 0 0)
    1 1 1 true 0.

(** Every point of the line through [pos] along [dir] lies farther from
    the tube axis than the tube radius. *)
Definition passes_outside (tb : Detector.Tube) (dir pos : Vec4) : Prop :=
  ∀ t, Detector.radius tb ^ 2 < Detector.radial_dist2 tb (vadd pos (vscale t dir)).

(** The selected intersection with the cylinder lies beyond an open end of
    the tube: its axial coordinate is outside [[-1, 1]]. *)
Definition leaves_through_end (tb : Detector.Tube) (dir pos : Vec4) : Prop :=
  1 < Rabs (Detector.axial_coord tb
              (vadd pos (vscale (Detector.chosen_root tb dir pos) dir))).

(** A ray through the interior of the tube that runs nearly parallel to
    the axis: it starts at a distance [r0] from the axis that is at most
    the radius [R], and its radial speed is so small against its axial
    speed that it passes the axial bounds before it can cover the
    remaining radial distance [R - r0]:
    [a * (1 + |axial(pos)|)² < (R - r0)² * (dir · e_x / s_x)²]. *)
Definition nearly_axial (tb : Detector.Tube) (dir pos : Vec4) : Prop :=
  let r0 := sqrt (Detector.radial_dist2 tb pos) in
  r0 <= Detector.radius tb ∧
  Detector.quad_a tb dir * (1 + Rabs (Detector.axial_coord tb pos)) ^ 2
    < (Detector.radius tb - r0) ^ 2
      * (dot dir (Detector.e_x tb) / Detector.s_x tb) ^ 2.

Definition o_default : Vec4 := mkVec4 0 0 0 1.
Definition o_moved : Vec4 := mkVec4 (8 / 10) (8 / 10) (12 / 10) 1.

(** The valid range and the angle convention used in the instances:
    forward ray parameters, angles left as computed. *)
Definition forward : Detector.Tube → Vec4 → Vec4 → R → bool :=
  λ _ _ _ t, bool_decide (0 <= t).
Definition as_is : R → R := λ a, a.

(** *** Vocabulary for the further properties *)

(** Every column of the table has one entry per row. *)
Definition col_length (c : Column) : nat :=
  match c with
  | ColScalar l => length l
  | ColVec l => length l
  end.

Definition table_wf (t : Table) : Prop :=
  ∀ c col, cols t !! c = Some col → col_length col = nrows t.

(** A column name the element itself may create. *)
Definition own_name (el : FlatOpticalElement) (c : string) : Prop :=
  Some c = id_col el ∨ requested (loc_coos_name el) c ∨ c ∈ output_columns el.

(** A geometry as the element base class builds it: [center] is a point,
    [v_y] and [v_z] are directions lying in the plane with normal [e_x]. *)
Definition plane_frame (el : FlatOpticalElement) : Prop :=
  vw (center el) = 1 ∧ vw (v_y el) = 0 ∧ vw (v_z el) = 0 ∧
  dot (v_y el) (e_x el) = 0 ∧ dot (v_z el) (e_x el) = 0.

(** A flat aperture with a footprint of positive area. *)
Definition nondegenerate (ap : FlatAperture) : Prop :=
  match ap with
  | RectangleAperture el => 0 < norm (v_y el) ∧ 0 < norm (v_z el)
  | CircleAperture el r_inner phi =>
      0 <= r_inner < norm (v_y el) ∧ phi.1 < phi.2
  end.

(** The same composite with every sub-aperture area multiplied by [k]
    (the areas expressed in another unit). *)
Definition scale_areas (k : R) (ma : MultiAperture) : MultiAperture :=
  mkMulti ((λ e, mkElem (k * elem_area e) (elem_call e)) <$> elements ma)
    (multi_id_col ma) (preprocess_steps ma) (postprocess_steps ma).

(** The unit square with an id column. *)
Definition numbered_square : FlatOpticalElement :=
  mkElement (mkVec4 0 0 0 1) (mkVec4 1 0 0 0) (mkVec4 0 1 0 0) (mkVec4 0 0 1 0)
    (Some ("y", "z")) (Some "aperture") 3 [] (add_cols_fill []).

(** A batch without a direction column, and one without probabilities. *)
Definition no_dir : Table :=
  mkTable 1 (<["probability" := ColScalar [1]]> ∅).
Definition no_probability : Table :=
  mkTable 1 (<["dir" := ColVec [mkVec4 (-1) 0 0 0]]> ∅).

(** Three sub-apertures of areas 1, 0 and 3. *)
Definition with_closed_aperture : MultiAperture :=
  mkMulti [mkElem 1 pass_on; mkElem 0 pass_on; mkElem 3 pass_on]
    (Some "aperture") [] [].

(** A composite with the single sub-aperture of area 2. *)
Definition one_aperture : MultiAperture :=
  mkMulti [mkElem 2 pass_on] (Some "aperture") [] [].

(** A composite of a single unit-square aperture, without processing
    steps. *)
Definition one_square : MultiAperture :=
  mkMulti [as_element (RectangleAperture unit_square)] (Some "aperture") [] [].

(** Three sub-apertures, the last with a negative area. *)
Definition with_negative_area : MultiAperture :=
  mkMulti [mkElem 3 pass_on; mkElem 1 pass_on; mkElem (-2) pass_on]
    (Some "aperture") [] [].

(** The number of photons in the groups of sub-apertures [i, i+1, ...,
    i+k-1]. *)
Fixpoint group_rows (aperid : list nat) (i k : nat) : nat :=
  match k with
  | O => 0
  | S k' => count_true (id_mask aperid i) + group_rows aperid (S i) k'
  end.

(** The moved tube with its axial zoom doubled, as in the last part of
    [test_intersect_tube_2points]. *)
Definition tube_long : Detector.Tube :=
  Detector.mkTube o_moved (mkVec4 0 0 1 0) (mkVec4 1 0 0 0) (mkVec4 0 1 0 0)
    2 1 1 true 0.
(** ** The call of a flat aperture *)

Lemma lookup_set_col_eq name col t :
  cols (set_col name col t) !! name = Some col.
Proof. apply lookup_insert_eq. Qed.

Lemma lookup_set_col_ne name c col t :
  name ≠ c → cols (set_col name col t) !! c = cols t !! c.
Proof. intros Hne. by apply lookup_insert_ne. Qed.

Lemma lookup_with_id el t c :
  Some c ≠ id_col el → cols (with_id el t) !! c = cols t !! c.
Proof.
  unfold with_id. destruct (id_col el) as [c'|]; [|done].
  intros Hne. simpl. apply lookup_insert_ne. congruence.
Qed.

Lemma lookup_with_local el x y t c :
  ¬ requested (loc_coos_name el) c →
  cols (with_local el x y t) !! c = cols t !! c.
Proof.
  unfold with_local, requested.
  destruct (loc_coos_name el) as [[cx cy]|]; [|done].
  intros Hne. simpl.
  rewrite !lookup_insert_ne; [done| |]; intros ->; tauto.
Qed.

Lemma nrows_positioned el x y t :
  base_contract el → nrows (positioned el x y t) = nrows t.
Proof.
  intros Hb. unfold positioned, with_local, with_id. simpl.
  destruct (loc_coos_name el) as [[cx cy]|], (id_col el); simpl;
    apply (Hb t _).
Qed.

Lemma lookup_positioned_core el x y t c col :
  base_contract el → names_ok el →
  c = "dir" ∨ c = "probability" →
  cols t !! c = Some col →
  cols (positioned el x y t) !! c = Some col.
Proof.
  intros Hb [Hid Hloc] Hc Hcol. unfold positioned. simpl.
  rewrite lookup_insert_ne by (destruct Hc as [-> | ->]; done).
  rewrite lookup_with_local.
  - rewrite lookup_with_id.
    + by apply (Hb t _).
    + intros Heq. symmetry in Heq. apply Hid in Heq.
      destruct Hc as [-> | ->]; tauto.
  - unfold requested. destruct (loc_coos_name el) as [[cx cy]|] eqn:E; [|tauto].
    specialize (Hloc cx cy eq_refl).
    destruct Hc as [-> | ->]; intros [Heq | Heq]; subst; tauto.
Qed.

(** On a well-formed batch the call returns, and the table it returns is
    the positioned table with the probability column rescaled. *)
Lemma call_returns ap t g ds ps :
  base_contract (element ap) → names_ok (element ap) → batch_ok t ds ps →
  ∃ x y g',
    generate_local_xy ap (nrows t) g = (x, y, g') ∧
    call ap t g =
      Ok (set_col "probability"
            (ColScalar (zip_with Rmult ps (cos_factor (element ap) <$> ds)))
            (positioned (element ap) x y t), g').
Proof.
  intros Hb Hn (Hd & Hp & _ & _).
  destruct (generate_local_xy ap (nrows t) g) as [[x y] g'] eqn:Eg.
  exists x, y, g'. split; [done|].
  unfold call.
  assert (Hrows : nrows (with_id (element ap)
            (add_output_cols (element ap) t (loc_coos_name (element ap)))) = nrows t).
  { unfold with_id. destruct (id_col (element ap)); simpl; apply (Hb t _). }
  fold (with_id (element ap)
          (add_output_cols (element ap) t (loc_coos_name (element ap)))).
  rewrite Hrows, Eg.
  fold (with_local (element ap) x y (with_id (element ap)
          (add_output_cols (element ap) t (loc_coos_name (element ap))))).
  fold (positioned (element ap) x y t).
  pose proof (lookup_positioned_core _ x y t "dir" _ Hb Hn (or_introl eq_refl) Hd) as Hd'.
  pose proof (lookup_positioned_core _ x y t "probability" _ Hb Hn (or_intror eq_refl) Hp) as Hp'.
  remember (positioned (element ap) x y t) as P.
  unfold get_col. rewrite Hd'. simpl. rewrite Hp'. simpl.
  by rewrite <- list_fmap_compose.
Qed.

(** ** Probability attenuation *)

Lemma clip_unit_range a : 0 <= clip a 0 1 <= 1.
Proof.
  unfold clip, Rmin, Rmax.
  repeat (destruct (Rle_dec _ _)); lra.
Qed.

Lemma clip_nonpos a : a <= 0 → clip a 0 1 = 0.
Proof.
  intros Ha. unfold clip, Rmin, Rmax.
  repeat (destruct (Rle_dec _ _)); lra.
Qed.

Lemma dot_vneg d e : dot d (vneg e) = - dot d e.
Proof. unfold dot, vneg. simpl. ring. Qed.

Lemma fill_missing_nrows names t : nrows (fill_missing names t) = nrows t.
Proof.
  induction names as [|c names IH]; [done|]. simpl.
  destruct (cols (fill_missing names t) !! c); [done|]. simpl. done.
Qed.

Lemma fill_missing_keeps names t c col :
  cols t !! c = Some col → cols (fill_missing names t) !! c = Some col.
Proof.
  intros Hc. induction names as [|c' names IH]; [done|]. simpl.
  destruct (cols (fill_missing names t) !! c') eqn:E; [done|]. simpl.
  rewrite lookup_insert_ne; [done|]. intros ->. congruence.
Qed.

Lemma fill_missing_new names t c :
  cols t !! c = None → is_Some (cols (fill_missing names t) !! c) → c ∈ names.
Proof.
  intros Hc. induction names as [|c' names IH]; simpl.
  - rewrite Hc. by intros [? ?].
  - destruct (decide (c = c')) as [->|Hne]; [intros _; apply list_elem_of_here|].
    intros Hs. apply list_elem_of_further, IH.
    destruct (cols (fill_missing names t) !! c') eqn:E; [done|].
    simpl in Hs. by rewrite lookup_insert_ne in Hs.
Qed.

(** The placeholder instance honours the contract of [add_output_cols]. *)
Lemma add_cols_fill_contract el :
  add_output_cols el = add_cols_fill (output_columns el) → base_contract el.
Proof.
  intros Heq t names. rewrite Heq. unfold add_cols_fill. split; [|split].
  - apply fill_missing_nrows.
  - intros c col. apply fill_missing_keeps.
  - intros c Hc Hs. apply fill_missing_new in Hs; [|done].
    apply elem_of_app in Hs as [Hs|Hs]; [by left|right].
    unfold requested. destruct names as [[cx cy]|]; simpl in Hs.
    + apply elem_of_cons in Hs as [->|Hs]; [by left|].
      apply elem_of_cons in Hs as [->|Hs]; [by right|]. by apply elem_of_nil in Hs.
    + by apply elem_of_nil in Hs.
Qed.

Lemma unit_square_contract : base_contract unit_square.
Proof. by apply add_cols_fill_contract. Qed.

Lemma unit_square_names : names_ok unit_square.
Proof.
  split.
  - intros c Hc. discriminate Hc.
  - intros cx cy Hc. injection Hc as <- <-. repeat split; discriminate.
Qed.

Lemma two_photons_ok :
  batch_ok two_photons [mkVec4 (-1) 0 0 0; mkVec4 1 0 0 0] [1; / 2].
Proof. repeat split. Qed.

(** C1. For every batch handed to [FlatAperture.__call__] the call
    returns, and the probability of each photon in the returned batch is
    its original probability times [clip(dir · (-e_x), 0, 1)].  Hence a
    photon whose original probability lies in [[0, 1]] ends with a
    probability in [[0, original]], and a photon with [dir · e_x >= 0] ends
    with probability 0. *)
Theorem flat_call_attenuates_probability ap t g ds ps :
  base_contract (element ap) → names_ok (element ap) → batch_ok t ds ps →
  ∃ t' g' ps',
    call ap t g = Ok (t', g') ∧
    cols t' !! "probability" = Some (ColScalar ps') ∧
    length ps' = nrows t ∧
    ∀ j p d, ps !! j = Some p → ds !! j = Some d →
      ∃ p', ps' !! j = Some p' ∧
        p' = p * clip (dot d (vneg (e_x (element ap)))) 0 1 ∧
        (0 <= p <= 1 → 0 <= p' <= p) ∧
        (dot d (e_x (element ap)) >= 0 → p' = 0).
Proof.
  intros Hb Hn Hok.
  destruct (call_returns ap t g ds ps Hb Hn Hok) as (x & y & g' & _ & Hcall).
  destruct Hok as (_ & _ & Hld & Hlp).
  eexists _, g', _. split; [exact Hcall|]. split; [|split].
  - simpl. apply lookup_insert_eq.
  - rewrite length_zip_with, length_fmap. lia.
  - intros j p d Hp Hd.
    exists (p * cos_factor (element ap) d). split; [|split; [done|split]].
    + rewrite lookup_zip_with, Hp, list_lookup_fmap, Hd. done.
    + intros Hp01. pose proof (clip_unit_range (dot d (vneg (e_x (element ap))))).
      unfold cos_factor. nra.
    + intros Hback. unfold cos_factor.
      rewrite clip_nonpos; [ring|]. rewrite dot_vneg. lra.
Qed.

(** The attenuation theorem at the unit square and the two-photon batch. *)
Lemma flat_call_attenuates_probability_witness :
  ∃ t' g' ps',
    call (RectangleAperture unit_square) two_photons quarter_rng = Ok (t', g') ∧
    cols t' !! "probability" = Some (ColScalar ps') ∧
    length ps' = nrows two_photons ∧
    ∀ j p d, [1; / 2] !! j = Some p →
      [mkVec4 (-1) 0 0 0; mkVec4 1 0 0 0] !! j = Some d →
      ∃ p', ps' !! j = Some p' ∧
        p' = p * clip (dot d (vneg (e_x unit_square))) 0 1 ∧
        (0 <= p <= 1 → 0 <= p' <= p) ∧
        (dot d (e_x unit_square) >= 0 → p' = 0).
Proof.
  apply (flat_call_attenuates_probability (RectangleAperture unit_square)
           two_photons quarter_rng).
  - exact unit_square_contract.
  - exact unit_square_names.
  - exact two_photons_ok.
Defined.

(** The two photons of the instance: the one entering through the front
    keeps its probability, the one entering through the back ends at 0. *)
Lemma two_photons_probabilities :
  ∃ t' g',
    call (RectangleAperture unit_square) two_photons quarter_rng = Ok (t', g') ∧
    cols t' !! "probability" = Some (ColScalar [1; 0]).
Proof.
  destruct (call_returns (RectangleAperture unit_square) two_photons quarter_rng
              _ _ unit_square_contract unit_square_names two_photons_ok)
    as (x & y & g' & _ & Hcall).
  eexists _, g'. split; [exact Hcall|].
  rewrite lookup_set_col_eq. do 2 f_equal. cbn [element].
  unfold cos_factor, dot, vneg. simpl.
  f_equal; [|f_equal].
  - replace (-1 * - (1) + 0 * - 0 + 0 * - 0 + 0 * - 0) with 1 by ring.
    unfold clip, Rmin, Rmax. repeat (destruct (Rle_dec _ _)); lra.
  - replace (1 * - (1) + 0 * - 0 + 0 * - 0 + 0 * - 0) with (- 1) by ring.
    rewrite clip_nonpos by lra. ring.
Qed.

(** ** Positions and the frame of the call *)

Lemma lookup_random n g j :
  (j < n)%nat → (random n g).1 !! j = Some (g j).
Proof.
  intros Hj. unfold random. simpl.
  rewrite list_lookup_fmap, lookup_seq_lt by done. done.
Qed.

Lemma length_random n g : length (random n g).1 = n.
Proof. unfold random. simpl. by rewrite length_fmap, length_seq. Qed.

Lemma generate_local_xy_length ap n g x y g' :
  generate_local_xy ap n g = (x, y, g') → length x = n ∧ length y = n.
Proof.
  destruct ap as [el | el r_inner phi]; simpl; intros [= <- <- <-].
  - by rewrite !length_fmap, !length_seq.
  - by rewrite !length_zip_with, !length_fmap, !length_seq, Nat.min_id.
Qed.

Lemma lookup_positioned_pos el x y t :
  cols (positioned el x y t) !! "pos" = Some (ColVec (zip_with (to_global el) x y)).
Proof. unfold positioned. simpl. apply lookup_insert_eq. Qed.

Lemma lookup_positioned_local el x y t cx cy :
  names_ok el → loc_coos_name el = Some (cx, cy) →
  cols (positioned el x y t) !! cx = Some (ColScalar x) ∧
  cols (positioned el x y t) !! cy = Some (ColScalar y).
Proof.
  intros [_ Hloc] E. destruct (Hloc cx cy E) as (? & ? & ? & ? & ? & ? & ?).
  unfold positioned, with_local. rewrite E. simpl. split.
  - rewrite lookup_insert_ne by done. rewrite lookup_insert_ne by done.
    apply lookup_insert_eq.
  - rewrite lookup_insert_ne by done. apply lookup_insert_eq.
Qed.

Lemma lookup_positioned_other el x y t c :
  c ≠ "pos" → Some c ≠ id_col el → ¬ requested (loc_coos_name el) c →
  cols (positioned el x y t) !! c =
  cols (add_output_cols el t (loc_coos_name el)) !! c.
Proof.
  intros Hpos Hid Hloc. unfold positioned. simpl.
  rewrite lookup_insert_ne by done.
  rewrite lookup_with_local by done. by apply lookup_with_id.
Qed.

(** C7. [FlatAperture.__call__] returns with the position column set, row
    by row, to [center + x * v_y + y * v_z], where [x] and [y] are the
    arrays of [generate_local_xy], which are also what the two
    local-coordinate columns hold.  For a [RectangleAperture] the
    coordinates of photon [j] are [2 u - 1] for two draws [u] of the uniform
    generator that no other coordinate uses (draw [j] for [x], draw
    [n + j] for [y]), so each lies in [[-1, 1]]. *)
Theorem flat_call_sets_position ap t g ds ps :
  base_contract (element ap) → names_ok (element ap) → batch_ok t ds ps →
  unit_draws g →
  ∃ x y t' g' pos,
    generate_local_xy ap (nrows t) g = (x, y, g') ∧
    call ap t g = Ok (t', g') ∧
    length x = nrows t ∧ length y = nrows t ∧ length pos = nrows t ∧
    cols t' !! "pos" = Some (ColVec pos) ∧
    (∀ j xj yj, x !! j = Some xj → y !! j = Some yj →
       pos !! j = Some (vadd (vadd (center (element ap))
                                   (vscale xj (v_y (element ap))))
                             (vscale yj (v_z (element ap))))) ∧
    (∀ cx cy, loc_coos_name (element ap) = Some (cx, cy) →
       cols t' !! cx = Some (ColScalar x) ∧ cols t' !! cy = Some (ColScalar y)) ∧
    (∀ el, ap = RectangleAperture el → ∀ j, (j < nrows t)%nat →
       x !! j = Some (g j * 2 - 1) ∧
       y !! j = Some (g (nrows t + j)%nat * 2 - 1) ∧
       -1 <= g j * 2 - 1 <= 1 ∧
       -1 <= g (nrows t + j)%nat * 2 - 1 <= 1).
Proof.
  intros Hb Hn Hok Hg.
  destruct (call_returns ap t g ds ps Hb Hn Hok) as (x & y & g' & Hgen & Hcall).
  destruct (generate_local_xy_length _ _ _ _ _ _ Hgen) as [Hx Hy].
  exists x, y. eexists _, g', (zip_with (to_global (element ap)) x y).
  split; [exact Hgen|]. split; [exact Hcall|].
  split; [done|]. split; [done|]. split; [|split; [|split; [|split]]].
  - rewrite length_zip_with. lia.
  - rewrite lookup_set_col_ne by done. apply lookup_positioned_pos.
  - intros j xj yj Hxj Hyj. rewrite lookup_zip_with, Hxj. simpl. by rewrite Hyj.
  - intros cx cy E.
    destruct (lookup_positioned_local _ x y t cx cy Hn E) as [Hcx Hcy].
    destruct Hn as [_ Hloc]. destruct (Hloc cx cy E) as (? & ? & ? & ? & ? & ? & ?).
    rewrite !lookup_set_col_ne by done. done.
  - intros el -> j Hj. simpl in Hgen. injection Hgen as <- <- <-.
    pose proof (Hg j). pose proof (Hg (nrows t + j)%nat).
    split; [|split; [|split; lra]].
    + rewrite !list_lookup_fmap, lookup_seq_lt by done. done.
    + rewrite !list_lookup_fmap, lookup_seq_lt by done. done.
Qed.

Lemma quarter_rng_unit : unit_draws quarter_rng.
Proof. intros k. unfold quarter_rng. lra. Qed.

(** The position theorem at the unit square and the two-photon batch. *)
Lemma flat_call_sets_position_witness :
  ∃ x y t' g' pos,
    generate_local_xy (RectangleAperture unit_square) 2 quarter_rng = (x, y, g') ∧
    call (RectangleAperture unit_square) two_photons quarter_rng = Ok (t', g') ∧
    length x = 2%nat ∧ length y = 2%nat ∧ length pos = 2%nat ∧
    cols t' !! "pos" = Some (ColVec pos) ∧
    (∀ j xj yj, x !! j = Some xj → y !! j = Some yj →
       pos !! j = Some (vadd (vadd (center unit_square)
                                   (vscale xj (v_y unit_square)))
                             (vscale yj (v_z unit_square)))) ∧
    (∀ cx cy, loc_coos_name unit_square = Some (cx, cy) →
       cols t' !! cx = Some (ColScalar x) ∧ cols t' !! cy = Some (ColScalar y)) ∧
    (∀ el, RectangleAperture unit_square = RectangleAperture el →
       ∀ j, (j < 2)%nat →
       x !! j = Some (quarter_rng j * 2 - 1) ∧
       y !! j = Some (quarter_rng (2 + j)%nat * 2 - 1) ∧
       -1 <= quarter_rng j * 2 - 1 <= 1 ∧
       -1 <= quarter_rng (2 + j)%nat * 2 - 1 <= 1).
Proof.
  apply (flat_call_sets_position (RectangleAperture unit_square)
           two_photons quarter_rng _ _
           unit_square_contract unit_square_names two_photons_ok
           quarter_rng_unit).
Defined.

Lemma seen_photon_ok : batch_ok seen_photon [mkVec4 (-1) 0 0 0] [1].
Proof. repeat split. Qed.

(** C8, as worded, fails: a batch that already has a column named like a
    local-coordinate column gets that column overwritten, and a batch
    without a ['pos'] column gets one. *)
Lemma flat_call_frame_counterexample :
  ∃ t' g',
    call (RectangleAperture unit_square) seen_photon quarter_rng = Ok (t', g') ∧
    cols seen_photon !! "y" = Some (ColScalar [7]) ∧
    cols t' !! "y" = Some (ColScalar [/ 4 * 2 - 1]) ∧
    cols seen_photon !! "pos" = None ∧
    is_Some (cols t' !! "pos") ∧
    ¬ frame_as_stated unit_square seen_photon t'.
Proof.
  destruct (call_returns (RectangleAperture unit_square) seen_photon quarter_rng
              _ _ unit_square_contract unit_square_names seen_photon_ok)
    as (x & y & g' & Hgen & Hcall).
  match type of Hcall with _ = Ok (?T, _) => remember T as t' eqn:Et end.
  exists t', g'. split; [exact Hcall|].
  assert (Hy : cols t' !! "y" = Some (ColScalar [/ 4 * 2 - 1])).
  { cbn [element] in Et. subst t'. rewrite lookup_set_col_ne by done.
    destruct (lookup_positioned_local unit_square x y seen_photon "y" "z"
                unit_square_names eq_refl) as [-> _].
    simpl in Hgen. by injection Hgen as <- <- <-. }
  split; [done|]. split; [exact Hy|]. split; [done|]. split.
  { subst t'. rewrite lookup_set_col_ne by done.
    rewrite lookup_positioned_pos. by eexists. }
  intros (_ & Hkeep & _).
  specialize (Hkeep "y" (ColScalar [7]) eq_refl).
  rewrite Hy in Hkeep.
  assert (Some (ColScalar [/ 4 * 2 - 1]) = Some (ColScalar [7])) as [= Heq].
  { apply Hkeep; done. }
  lra.
Qed.

(** C8, amended. On a well-formed batch the call returns a batch of the
    same length.  Every column of the input other than ['pos'],
    ['probability'], the id column and the two local-coordinate columns is
    returned unchanged (so ['dir'] is), and a column that is new is
    ['pos'], the id column, a local-coordinate column or one of the
    element's output columns. *)
Theorem flat_call_frame ap t g ds ps :
  base_contract (element ap) → names_ok (element ap) → batch_ok t ds ps →
  ∃ t' g',
    call ap t g = Ok (t', g') ∧
    nrows t' = nrows t ∧
    (∀ c col, cols t !! c = Some col →
       c ≠ "pos" → c ≠ "probability" → Some c ≠ id_col (element ap) →
       ¬ requested (loc_coos_name (element ap)) c →
       cols t' !! c = Some col) ∧
    (∀ c, cols t !! c = None → is_Some (cols t' !! c) →
       c = "pos" ∨ Some c = id_col (element ap) ∨
       requested (loc_coos_name (element ap)) c ∨
       c ∈ output_columns (element ap)) ∧
    cols t' !! "dir" = Some (ColVec ds).
Proof.
  intros Hb Hn Hok.
  destruct (call_returns ap t g ds ps Hb Hn Hok) as (x & y & g' & Hgen & Hcall).
  eexists _, g'. split; [exact Hcall|]. split; [|split; [|split]].
  - simpl. by apply nrows_positioned.
  - intros c col Hc Hpos Hprob Hid Hloc.
    rewrite lookup_set_col_ne by done.
    rewrite lookup_positioned_other by done. by apply (Hb t _).
  - intros c Hc Hs.
    destruct (decide (c = "pos")) as [|Hpos]; [by left|].
    destruct (decide (Some c = id_col (element ap))) as [|Hid]; [by right; left|].
    destruct (decide (c = "probability")) as [->|Hprob].
    { destruct Hok as (_ & Hp & _). congruence. }
    right; right.
    destruct (loc_coos_name (element ap)) as [[cx cy]|] eqn:E.
    + destruct (decide (c = cx)) as [|Hcx]; [by left; left|].
      destruct (decide (c = cy)) as [|Hcy]; [by left; right|].
      rewrite lookup_set_col_ne in Hs by done.
      rewrite lookup_positioned_other in Hs; [|done|done|rewrite E; simpl; tauto].
      rewrite E in Hs. destruct (Hb t (Some (cx, cy))) as (_ & _ & Hnew).
      destruct (Hnew c Hc Hs) as [|[|]]; [by right|done|done].
    + rewrite lookup_set_col_ne in Hs by done.
      rewrite lookup_positioned_other in Hs; [|done|done|rewrite E; simpl; tauto].
      rewrite E in Hs. destruct (Hb t None) as (_ & _ & Hnew).
      destruct (Hnew c Hc Hs) as [|[]]. by right.
  - rewrite lookup_set_col_ne by done.
    destruct Hok as (Hd & _).
    by apply lookup_positioned_core; [| |left|].
Qed.

(** The frame theorem at the batch that already carries a ["y"] column. *)
Lemma flat_call_frame_witness :
  ∃ t' g',
    call (RectangleAperture unit_square) seen_photon quarter_rng = Ok (t', g') ∧
    nrows t' = nrows seen_photon ∧
    (∀ c col, cols seen_photon !! c = Some col →
       c ≠ "pos" → c ≠ "probability" → Some c ≠ id_col unit_square →
       ¬ requested (loc_coos_name unit_square) c →
       cols t' !! c = Some col) ∧
    (∀ c, cols seen_photon !! c = None → is_Some (cols t' !! c) →
       c = "pos" ∨ Some c = id_col unit_square ∨
       requested (loc_coos_name unit_square) c ∨
       c ∈ output_columns unit_square) ∧
    cols t' !! "dir" = Some (ColVec [mkVec4 (-1) 0 0 0]).
Proof.
  apply (flat_call_frame (RectangleAperture unit_square) seen_photon quarter_rng
           _ _ unit_square_contract unit_square_names seen_photon_ok).
Defined.

(** ** Construction of a circular aperture *)

Lemma norm_unit_square_y : norm (v_y unit_square) = 1.
Proof.
  unfold norm, dot. simpl.
  replace (0 * 0 + 1 * 1 + 0 * 0 + 0 * 0) with 1 by ring. apply sqrt_1.
Qed.

Lemma norm_unit_square_z : norm (v_z unit_square) = 1.
Proof.
  unfold norm, dot. simpl.
  replace (0 * 0 + 0 * 0 + 1 * 1 + 0 * 0) with 1 by ring. apply sqrt_1.
Qed.

Lemma norm_wide_rectangle_y : norm (v_y wide_rectangle) = 1.
Proof. exact norm_unit_square_y. Qed.

Lemma norm_wide_rectangle_z : norm (v_z wide_rectangle) = 2.
Proof.
  unfold norm, dot. simpl.
  replace (0 * 0 + 0 * 0 + 2 * 2 + 0 * 0) with (2 * 2) by ring.
  apply sqrt_square. lra.
Qed.

Lemma isclose_refl a : isclose a a = true.
Proof.
  unfold isclose, atol, rtol. apply bool_decide_eq_true.
  replace (a - a) with 0 by ring. rewrite Rabs_R0.
  pose proof (Rabs_pos a). nra.
Qed.

Lemma isclose_1_2 : isclose 1 2 = false.
Proof.
  unfold isclose, atol, rtol. apply bool_decide_eq_false.
  rewrite (Rabs_left (1 - 2)), (Rabs_right 2) by lra. lra.
Qed.

(** C2, as worded, fails: an inner radius larger than the aperture is
    rejected with [ValueError], not with [GeometryError]. *)
Lemma circle_init_counterexample :
  ¬ (2 < norm (v_y unit_square)) ∧
  CircleAperture_init unit_square 2 full_circle = Raise ValueError ∧
  CircleAperture_init unit_square 2 full_circle ≠ Raise GeometryError.
Proof.
  rewrite norm_unit_square_y.
  assert (H : CircleAperture_init unit_square 2 full_circle = Raise ValueError).
  { unfold CircleAperture_init. rewrite norm_unit_square_y.
    rewrite bool_decide_eq_true_2; [done|lra]. }
  split; [lra|]. split; [exact H|]. rewrite H. discriminate.
Qed.

(** The boundary case: an inner radius equal to the outer radius passes
    the check of line 128. *)
Lemma circle_init_equal_radius :
  CircleAperture_init unit_square 1 full_circle =
  Ok (CircleAperture unit_square 1 full_circle).
Proof.
  unfold CircleAperture_init.
  rewrite norm_unit_square_y, norm_unit_square_z, isclose_refl.
  rewrite bool_decide_eq_false_2; [done|lra].
Qed.

(** C2, amended. [CircleAperture.__init__] raises [ValueError] when the
    inner radius exceeds the outer radius [|v_y|]; with an inner radius
    strictly below the outer radius it raises [GeometryError] when [|v_y|]
    and [|v_z|] are not equal within the tolerance of [np.isclose], and
    returns the aperture when they are. *)
Theorem circle_init_checks el r_inner phi :
  (r_inner > norm (v_y el) →
     CircleAperture_init el r_inner phi = Raise ValueError) ∧
  (r_inner < norm (v_y el) →
     isclose (norm (v_y el)) (norm (v_z el)) = false →
     CircleAperture_init el r_inner phi = Raise GeometryError) ∧
  (r_inner < norm (v_y el) →
     isclose (norm (v_y el)) (norm (v_z el)) = true →
     CircleAperture_init el r_inner phi = Ok (CircleAperture el r_inner phi)).
Proof.
  unfold CircleAperture_init. split; [|split].
  - intros H. by rewrite bool_decide_eq_true_2.
  - intros H ->. rewrite bool_decide_eq_false_2; [done|lra].
  - intros H ->. rewrite bool_decide_eq_false_2; [done|lra].
Qed.

(** The three outcomes of the constructor on concrete geometries. *)
Lemma circle_init_checks_witness :
  CircleAperture_init unit_square 2 full_circle = Raise ValueError ∧
  CircleAperture_init wide_rectangle (/ 2) full_circle = Raise GeometryError ∧
  CircleAperture_init unit_square (/ 2) full_circle =
    Ok (CircleAperture unit_square (/ 2) full_circle).
Proof.
  split; [|split].
  - apply (proj1 (circle_init_checks unit_square 2 full_circle)).
    rewrite norm_unit_square_y. lra.
  - apply (proj1 (proj2 (circle_init_checks wide_rectangle (/ 2) full_circle))).
    + rewrite norm_wide_rectangle_y. lra.
    + rewrite norm_wide_rectangle_y, norm_wide_rectangle_z. exact isclose_1_2.
  - apply (proj2 (proj2 (circle_init_checks unit_square (/ 2) full_circle))).
    + rewrite norm_unit_square_y. lra.
    + rewrite norm_unit_square_y, norm_unit_square_z. apply isclose_refl.
Defined.

(** ** Areas *)

Lemma norm_sqr a : norm a ^ 2 = dot a a.
Proof.
  unfold norm. simpl. rewrite Rmult_1_r. apply sqrt_sqrt.
  unfold dot. nra.
Qed.

(** C9. The area of a [RectangleAperture] is [4 * |v_y| * |v_z|]; the
    area of a [CircleAperture] is
    [(phi_max - phi_min) / (2π) * π * (|v_y|² - r_inner²)], which is
    [(phi_max - phi_min) / 2 * (v_y · v_y - r_inner²)]. *)
Theorem area_formulas el r_inner phi_min phi_max :
  area (RectangleAperture el) = 4 * norm (v_y el) * norm (v_z el) ∧
  area (CircleAperture el r_inner (phi_min, phi_max)) =
    (phi_max - phi_min) / (2 * PI) * PI * (norm (v_y el) ^ 2 - r_inner ^ 2) ∧
  area (CircleAperture el r_inner (phi_min, phi_max)) =
    (phi_max - phi_min) / 2 * (dot (v_y el) (v_y el) - r_inner ^ 2).
Proof.
  split; [reflexivity|]. split.
  - unfold area. cbn [fst snd]. ring.
  - unfold area. cbn [fst snd]. rewrite norm_sqr.
    pose proof PI_neq0. field. done.
Qed.

(** ** process_photons *)

(** C10. [FlatAperture.process_photons] raises [NotImplementedError] for
    every aperture and every batch, and leaves the batch as it was. *)
Theorem process_photons_raises ap photons :
  (process_photons ap photons).2 = Raise NotImplementedError ∧
  (process_photons ap photons).1 = photons.
Proof. done. Qed.

(** ** Sampling a circular aperture *)

Lemma uniform_in_range low high u :
  low < high → 0 <= u < 1 → low <= low + (high - low) * u < high.
Proof. intros. nra. Qed.

Lemma affine_unit_range s u :
  0 <= s <= 1 → 0 <= u < 1 → s <= s + (1 - s) * u <= 1.
Proof. intros. nra. Qed.

Lemma sqrt_le_iff v rho :
  0 <= v → 0 <= rho → sqrt v <= rho ↔ v <= rho ^ 2.
Proof.
  intros Hv Hrho. split; intros H.
  - pose proof (sqrt_pos v). rewrite <- (sqrt_sqrt v Hv). nra.
  - replace rho with (sqrt (rho ^ 2)).
    + by apply sqrt_le_1_alt.
    + simpl. rewrite Rmult_1_r. by apply sqrt_square.
Qed.

Lemma radius_of_polar r phi :
  0 <= r → sqrt ((r * cos phi) ^ 2 + (r * sin phi) ^ 2) = r.
Proof.
  intros Hr. pose proof (sin2_cos2 phi) as H. unfold Rsqr in H.
  replace ((r * cos phi) ^ 2 + (r * sin phi) ^ 2)
    with (r * r * (sin phi * sin phi + cos phi * cos phi)) by ring.
  rewrite H, Rmult_1_r. by apply sqrt_square.
Qed.

(** C6. [CircleAperture.generate_local_xy(n)] returns [n] points
    [(r cos φ, r sin φ)], where for photon [j] the angle is
    [φ = phi_min + (phi_max - phi_min) u] for draw [u = g j] of the uniform
    generator, and [r = sqrt(uniform(rn², 1))], that is
    [r² = rn² + (1 - rn²) v] for a further draw [v = g (n + j)], with
    [rn = r_inner / |v_y|].  So [φ] lies in [[phi_min, phi_max)], the
    normalized radius of the point is [r] and lies between [rn] and 1, and
    [r <= ρ] holds exactly when [v <= (ρ² - rn²) / (1 - rn²)] — the
    fraction of the annulus area inside radius [ρ] — which is what makes
    the areal density uniform. *)
Theorem circle_generate_local_xy el r_inner phi_min phi_max n g :
  unit_draws g → phi_min < phi_max →
  0 < norm (v_y el) → 0 <= r_inner <= norm (v_y el) →
  ∃ x y g',
    generate_local_xy (CircleAperture el r_inner (phi_min, phi_max)) n g
      = (x, y, g') ∧
    length x = n ∧ length y = n ∧
    ∀ j, (j < n)%nat →
      let phi := phi_min + (phi_max - phi_min) * g j in
      let rn := r_inner / norm (v_y el) in
      let r := sqrt (rn ^ 2 + (1 - rn ^ 2) * g (n + j)%nat) in
      x !! j = Some (r * cos phi) ∧
      y !! j = Some (r * sin phi) ∧
      phi_min <= phi < phi_max ∧
      sqrt ((r * cos phi) ^ 2 + (r * sin phi) ^ 2) = r ∧
      rn <= r <= 1 ∧
      r ^ 2 = rn ^ 2 + (1 - rn ^ 2) * g (n + j)%nat ∧
      ∀ rho, rn <= rho <= 1 →
        (r <= rho ↔ (1 - rn ^ 2) * g (n + j)%nat <= rho ^ 2 - rn ^ 2).
Proof.
  intros Hg Hphi Hnorm Hr.
  destruct (generate_local_xy (CircleAperture el r_inner (phi_min, phi_max)) n g)
    as [[x y] g'] eqn:Egen.
  exists x, y, g'. split; [done|].
  destruct (generate_local_xy_length _ _ _ _ _ _ Egen) as [Hx Hy].
  split; [done|]. split; [done|].
  intros j Hj phi rn r.
  assert (Hrn : 0 <= rn <= 1).
  { unfold rn. split.
    - apply Rmult_le_pos; [lra|]. left. by apply Rinv_0_lt_compat.
    - apply (Rmult_le_reg_r (norm (v_y el))); [done|].
      unfold Rdiv. rewrite Rmult_assoc, Rinv_l by lra. lra. }
  pose proof (Hg j) as Hu. pose proof (Hg (n + j)%nat) as Hv.
  set (v := rn ^ 2 + (1 - rn ^ 2) * g (n + j)%nat).
  assert (Hsq : 0 <= rn ^ 2 <= 1) by (simpl; nra).
  assert (Hv_range : rn ^ 2 <= v <= 1) by (by apply affine_unit_range).
  assert (Hv_pos : 0 <= v) by lra.
  assert (Hr_pos : 0 <= r) by apply sqrt_pos.
  assert (Hr_sq : r ^ 2 = v).
  { unfold r. fold v. simpl. rewrite Rmult_1_r. by apply sqrt_sqrt. }
  simpl in Egen. injection Egen as <- <- <-.
  split; [|split; [|split; [|split; [|split; [|split]]]]].
  - rewrite lookup_zip_with, !list_lookup_fmap, !lookup_seq_lt by done. done.
  - rewrite lookup_zip_with, !list_lookup_fmap, !lookup_seq_lt by done. done.
  - by apply uniform_in_range.
  - by apply radius_of_polar.
  - unfold r. fold v. split.
    + replace rn with (sqrt (rn ^ 2)) at 1.
      * apply sqrt_le_1_alt. lra.
      * simpl. rewrite Rmult_1_r. apply sqrt_square. lra.
    + rewrite <- sqrt_1. apply sqrt_le_1_alt. lra.
  - exact Hr_sq.
  - intros rho Hrho. unfold r. fold v.
    rewrite sqrt_le_iff by lra. unfold v. split; intros; lra.
Qed.

(** The sampling theorem for a ring of inner radius 1/2 over the full
    circle. *)
Lemma circle_generate_local_xy_witness :
  ∃ x y g',
    generate_local_xy (CircleAperture unit_square (/ 2) (0, 2 * PI)) 2 quarter_rng
      = (x, y, g') ∧
    length x = 2%nat ∧ length y = 2%nat ∧
    ∀ j, (j < 2)%nat →
      let phi := 0 + (2 * PI - 0) * quarter_rng j in
      let rn := / 2 / norm (v_y unit_square) in
      let r := sqrt (rn ^ 2 + (1 - rn ^ 2) * quarter_rng (2 + j)%nat) in
      x !! j = Some (r * cos phi) ∧
      y !! j = Some (r * sin phi) ∧
      0 <= phi < 2 * PI ∧
      sqrt ((r * cos phi) ^ 2 + (r * sin phi) ^ 2) = r ∧
      rn <= r <= 1 ∧
      r ^ 2 = rn ^ 2 + (1 - rn ^ 2) * quarter_rng (2 + j)%nat ∧
      ∀ rho, rn <= rho <= 1 →
        (r <= rho ↔ (1 - rn ^ 2) * quarter_rng (2 + j)%nat <= rho ^ 2 - rn ^ 2).
Proof.
  apply (circle_generate_local_xy unit_square (/ 2) 0 (2 * PI) 2 quarter_rng).
  - exact quarter_rng_unit.
  - pose proof PI_RGT_0. lra.
  - rewrite norm_unit_square_y. lra.
  - rewrite norm_unit_square_y. lra.
Defined.

(** ** MultiAperture: area-weighted assignment *)

Lemma lookup_cumsum_from acc l i :
  (i < length l)%nat →
  cumsum_from acc l !! i = Some (acc + rsum (take (S i) l)).
Proof.
  revert acc i. induction l as [|a l IH]; intros acc i Hi; simpl in *; [lia|].
  destruct i as [|i]; simpl.
  - f_equal. ring.
  - rewrite IH by lia. f_equal. simpl. ring.
Qed.

Lemma length_cumsum_from acc l : length (cumsum_from acc l) = length l.
Proof. revert acc. induction l as [|a l IH]; intros acc; simpl; [done|]. by rewrite IH. Qed.

Lemma rsum_take_mono l i j :
  Forall (λ a, 0 < a) l → (i <= j)%nat → rsum (take i l) <= rsum (take j l).
Proof.
  intros Hpos. revert i j. induction Hpos as [|a l Ha Hl IH]; intros i j Hij.
  - rewrite !take_nil. lra.
  - destruct i as [|i]; destruct j as [|j]; simpl; try lia; try lra.
    + assert (0 <= rsum (take j l)).
      { specialize (IH 0%nat j). rewrite take_0 in IH. simpl in IH. apply IH. lia. }
      lra.
    + specialize (IH i j). assert (i <= j)%nat by lia. apply IH in H. lra.
Qed.

Lemma rsum_pos l : l ≠ [] → Forall (λ a, 0 < a) l → 0 < rsum l.
Proof.
  intros Hne Hpos. destruct Hpos as [|a l Ha Hl]; [done|]. simpl.
  pose proof (rsum_take_mono l 0 (length l) Hl) as H.
  rewrite take_0, firstn_all in H. simpl in H. assert (0 <= rsum l) by (apply H; lia). lra.
Qed.

Lemma areas_positive ma :
  Forall (λ e, 0 < elem_area e) (elements ma) → Forall (λ a, 0 < a) (areas ma).
Proof. intros H. unfold areas. by apply Forall_fmap. Qed.

Lemma lookup_area_bins ma i :
  (i < length (elements ma))%nat →
  area_bins ma !! i = Some (cum_area ma (S i) / multi_area ma).
Proof.
  intros Hi. unfold area_bins, cumsum, cum_area, areas.
  rewrite list_lookup_fmap, lookup_cumsum_from by (by rewrite length_fmap).
  simpl. do 2 f_equal. ring.
Qed.

Lemma length_area_bins ma : length (area_bins ma) = length (elements ma).
Proof. unfold area_bins, cumsum. by rewrite length_fmap, length_cumsum_from, length_fmap. Qed.

Lemma cum_area_total ma : cum_area ma (length (elements ma)) = multi_area ma.
Proof.
  unfold cum_area, multi_area, areas.
  rewrite <- (length_fmap elem_area). by rewrite firstn_all.
Qed.

Lemma nondecreasing_true l :
  (∀ i a b, l !! i = Some a → l !! S i = Some b → a <= b) →
  nondecreasing l = true.
Proof.
  induction l as [|a l IH]; intros H; [done|].
  destruct l as [|b l]; [done|].
  change (bool_decide (a <= b) && nondecreasing (b :: l) = true).
  rewrite bool_decide_eq_true_2 by (by apply (H 0%nat)).
  apply IH. intros i x y Hx Hy. by apply (H (S i)).
Qed.

Lemma searchsorted_right_le_length bins u :
  (searchsorted_right bins u <= length bins)%nat.
Proof.
  induction bins as [|b bins IH]; simpl; [lia|].
  destruct (bool_decide (b <= u)); lia.
Qed.

(** The bin at the returned index, when there is one, is above [u] ... *)
Lemma searchsorted_right_above bins u b :
  bins !! searchsorted_right bins u = Some b → u < b.
Proof.
  induction bins as [|b' bins IH]; simpl; [done|].
  destruct (bool_decide (b' <= u)) eqn:E; simpl.
  - exact IH.
  - intros [= ->]. apply bool_decide_eq_false in E. lra.
Qed.

(** ... and every bin before the returned index is at most [u]. *)
Lemma searchsorted_right_below bins u j b :
  (j < searchsorted_right bins u)%nat → bins !! j = Some b → b <= u.
Proof.
  revert j. induction bins as [|b' bins IH]; intros j; simpl; [lia|].
  destruct (bool_decide (b' <= u)) eqn:E; [|lia].
  apply bool_decide_eq_true in E.
  destruct j as [|j]; simpl.
  - by intros _ [= ->].
  - intros Hj. apply IH. lia.
Qed.

Lemma area_bins_sorted ma i j a b :
  elements ma ≠ [] → Forall (λ e, 0 < elem_area e) (elements ma) →
  (i <= j)%nat → area_bins ma !! i = Some a → area_bins ma !! j = Some b → a <= b.
Proof.
  intros Hne Hpos Hij Ha Hb.
  assert (Hi : (i < length (elements ma))%nat).
  { rewrite <- length_area_bins. by eapply lookup_lt_Some. }
  assert (Hj : (j < length (elements ma))%nat).
  { rewrite <- length_area_bins. by eapply lookup_lt_Some. }
  rewrite lookup_area_bins in Ha, Hb by done.
  injection Ha as <-. injection Hb as <-.
  assert (0 < multi_area ma).
  { apply rsum_pos; [|by apply areas_positive].
    fold (areas ma). unfold areas. by destruct (elements ma). }
  apply Rmult_le_compat_r; [left; by apply Rinv_0_lt_compat|].
  apply rsum_take_mono; [by apply areas_positive|lia].
Qed.

Lemma area_bins_nondecreasing ma :
  elements ma ≠ [] → Forall (λ e, 0 < elem_area e) (elements ma) →
  nondecreasing (area_bins ma) = true.
Proof.
  intros Hne Hpos. apply nondecreasing_true. intros i a b Ha Hb.
  apply (area_bins_sorted ma i (S i) a b Hne Hpos); [lia|done|done].
Qed.

Lemma multi_area_pos ma :
  elements ma ≠ [] → Forall (λ e, 0 < elem_area e) (elements ma) →
  0 < multi_area ma.
Proof.
  intros Hne Hpos. apply rsum_pos; [|by apply areas_positive].
  by destruct (elements ma).
Qed.

(** A draw below 1 never falls behind the last bin. *)
Lemma searchsorted_area_bins_lt ma u :
  elements ma ≠ [] → Forall (λ e, 0 < elem_area e) (elements ma) →
  u < 1 →
  (searchsorted_right (area_bins ma) u < length (elements ma))%nat.
Proof.
  intros Hne Hpos Hu.
  pose proof (searchsorted_right_le_length (area_bins ma) u) as Hle.
  rewrite length_area_bins in Hle.
  destruct (decide (searchsorted_right (area_bins ma) u = length (elements ma)))
    as [Heq|]; [|lia].
  exfalso.
  assert (Hk : (0 < length (elements ma))%nat).
  { destruct (elements ma); [done|simpl; lia]. }
  pose proof (searchsorted_right_below (area_bins ma) u
                (length (elements ma) - 1)
                (cum_area ma (S (length (elements ma) - 1)) / multi_area ma)) as H.
  rewrite lookup_area_bins in H by lia.
  replace (S (length (elements ma) - 1)) with (length (elements ma)) in H by lia.
  rewrite cum_area_total in H.
  pose proof (multi_area_pos ma Hne Hpos).
  unfold Rdiv in H. rewrite Rinv_r in H by lra.
  assert (1 <= u) by (apply H; [lia|done]). lra.
Qed.

(** Inverse-transform sampling: the index found for a draw [u] is [i]
    exactly when [u] lies in the [i]-th cumulative-area interval. *)
Lemma searchsorted_area_bins ma u i :
  elements ma ≠ [] → Forall (λ e, 0 < elem_area e) (elements ma) →
  0 <= u → (i < length (elements ma))%nat →
  searchsorted_right (area_bins ma) u = i ↔
  cum_area ma i / multi_area ma <= u < cum_area ma (S i) / multi_area ma.
Proof.
  intros Hne Hpos Hu Hi. split.
  - intros <-. split.
    + destruct (searchsorted_right (area_bins ma) u) as [|r] eqn:Er.
      * unfold cum_area. rewrite take_0. simpl. lra.
      * apply (searchsorted_right_below (area_bins ma) u r); [lia|].
        apply lookup_area_bins. lia.
    + apply (searchsorted_right_above (area_bins ma)).
      by apply lookup_area_bins.
  - intros [Hlo Hhi].
    destruct (lt_eq_lt_dec (searchsorted_right (area_bins ma) u) i)
      as [[Hlt|Heq]|Hgt]; [|done|]; exfalso.
    + set (r := searchsorted_right (area_bins ma) u) in *.
      assert (Hr : area_bins ma !! r = Some (cum_area ma (S r) / multi_area ma))
        by (apply lookup_area_bins; lia).
      pose proof (searchsorted_right_above _ _ _ Hr) as Habove.
      assert (cum_area ma (S r) / multi_area ma <= cum_area ma i / multi_area ma).
      { pose proof (multi_area_pos ma Hne Hpos).
        apply Rmult_le_compat_r; [left; by apply Rinv_0_lt_compat|].
        apply rsum_take_mono; [by apply areas_positive|lia]. }
      lra.
    + assert (cum_area ma (S i) / multi_area ma <= u).
      { apply (searchsorted_right_below (area_bins ma) u i); [done|].
        by apply lookup_area_bins. }
      lra.
Qed.




(** The instance: draws 1/8 and 1/2 against areas 1 and 3 (bins 1/4 and
    1) send the first photon to sub-aperture 0 and the second to 1. *)
Lemma two_apertures_digitize :
  digitize [/ 8; / 2] (area_bins two_apertures) = Ok [0; 1]%nat.
Proof.
  unfold digitize, area_bins, multi_area, cumsum. simpl.
  rewrite (bool_decide_eq_true_2 ((0 + 1) / (1 + (3 + 0)) <= (0 + 1 + 3) / (1 + (3 + 0))))
    by lra.
  simpl. do 2 f_equal; [|f_equal].
  - rewrite bool_decide_eq_false_2; [done|lra].
  - rewrite bool_decide_eq_true_2 by lra. rewrite bool_decide_eq_false_2; [done|lra].
Qed.

(** Concatenating the groups does not keep the input order: with ids
    [[1; 0]] the two rows come out swapped. *)
Lemma groups_reorder (a b : R) :
  concat ((λ i, mask_select (id_mask [1; 0]%nat i) [a; b]) <$> seq 0 2) = [b; a].
Proof. reflexivity. Qed.


Lemma split_rng_unit : unit_draws split_rng.
Proof. intros [|k]; simpl; lra. Qed.


(** The instance run end to end: the result has both rows, tagged 0 and 1,
    with their data. *)
Lemma two_apertures_run :
  ∃ res g',
    multi_call vstack_uniform two_apertures two_photons split_rng = Ok (res, g') ∧
    nrows res = 2%nat ∧
    cols res !! "aperture" = Some (ColScalar [INR 0; INR 1]) ∧
    cols res !! "probability" = Some (ColScalar [1; / 2]) ∧
    cols res !! "dir" = Some (ColVec [mkVec4 (-1) 0 0 0; mkVec4 1 0 0 0]).
Proof.
  unfold multi_call, random.
  change (split_rng <$> seq 0 (nrows two_photons)) with [/ 8; / 2].
  rewrite two_apertures_digitize. cbn [mbind result_bind].
  eexists _, _. split; [reflexivity|].
  repeat split.
Qed.

(** ** Pixel grid of the flat detector *)

Lemma round_nearest_close q :
  (Qabs (inject_Z (Detector.round_nearest q) - q) <= 1 # 2)%Q.
Proof.
  unfold Detector.round_nearest.
  pose proof (Qfloor_le q) as Hlo. pose proof (Qlt_floor q) as Hhi.
  rewrite inject_Z_plus in Hhi. change (inject_Z 1) with 1%Q in Hhi.
  apply Qabs_Qle_condition.
  destruct (q - inject_Z (Qfloor q) ?= 1 # 2)%Q eqn:E.
  - apply Qeq_alt in E.
    destruct (Z.even (Qfloor q));
      [|rewrite inject_Z_plus; change (inject_Z 1) with 1%Q]; split; Lqa.lra.
  - apply Qlt_alt in E. split; Lqa.lra.
  - apply Qgt_alt in E. rewrite inject_Z_plus. change (inject_Z 1) with 1%Q.
    split; Lqa.lra.
Qed.

(** C5. The flat detector's pixel count per axis is
    [round(2 * scale / pixsize)], within one half of the exact quotient
    (so never a systematic floor), and the central pixel is
    [(npix - 1) / 2].  For zoom [[1, 10, 5]] and pixel size 0.5 this gives
    [npix = [40, 20]] and [centerpix = [19.5, 9.5]]; for pixel size 0.05
    and extent 2 it gives [[40, 40]], and a quotient that falls just short
    of 40 is still rounded to 40 where a floor would give 39. *)
Theorem flat_detector_pixel_grid :
  (∀ scale pixsize,
     Detector.npix_axis scale pixsize
       = Detector.round_nearest (2 * scale / pixsize)%Q ∧
     (Qabs (inject_Z (Detector.npix_axis scale pixsize) - 2 * scale / pixsize)
        <= 1 # 2)%Q) ∧
  (∀ n, Detector.centerpix_axis n == (inject_Z n - 1) / 2)%Q ∧
  Detector.npix det_zoomed = [40; 20]%Z ∧
  Forall2 Qeq (Detector.centerpix det_zoomed) [39 # 2; 19 # 2]%Q ∧
  Detector.npix det_fine = [40; 40]%Z ∧
  Detector.round_nearest (3999999 # 100000)%Q = 40%Z ∧
  Qfloor (3999999 # 100000)%Q = 39%Z.
Proof.
  split; [|split; [|split; [|split; [|split; [|split]]]]].
  - intros scale pixsize. split; [done|]. apply round_nearest_close.
  - intros n. reflexivity.
  - reflexivity.
  - repeat constructor.
  - reflexivity.
  - reflexivity.
  - reflexivity.
Qed.

(** ** Rays that miss the tube *)

Lemma radial_dist2_along_ray tb dir pos t :
  Detector.radial_dist2 tb (vadd pos (vscale t dir)) - Detector.radius tb ^ 2 =
  Detector.quad_a tb dir * t ^ 2 + Detector.quad_b tb dir pos * t
    + Detector.quad_c tb pos.
Proof.
  unfold Detector.quad_a, Detector.quad_b, Detector.quad_c, Detector.radial_dist2,
    Detector.vsub, dot, vadd, vscale, vneg.
  simpl. ring.
Qed.

Lemma quad_a_nonneg tb dir : 0 <= Detector.quad_a tb dir.
Proof. unfold Detector.quad_a. simpl. nra. Qed.

(** A line that stays outside the tube radius has no real root. *)
Lemma outside_negative_discriminant tb dir pos :
  passes_outside tb dir pos → 0 < Detector.quad_a tb dir →
  Detector.discriminant tb dir pos < 0.
Proof.
  intros Hout Ha.
  specialize (Hout (- Detector.quad_b tb dir pos / (2 * Detector.quad_a tb dir))).
  apply Rlt_0_minus in Hout. rewrite radial_dist2_along_ray in Hout.
  unfold Detector.discriminant.
  set (a := Detector.quad_a tb dir) in *.
  set (b := Detector.quad_b tb dir pos) in *.
  set (c := Detector.quad_c tb pos) in *.
  replace (a * (- b / (2 * a)) ^ 2 + b * (- b / (2 * a)) + c)
    with ((4 * a * c - b ^ 2) / (4 * a)) in Hout by (field; lra).
  assert (0 < 4 * a) by lra.
  assert (0 < 4 * a * c - b ^ 2).
  { replace (4 * a * c - b ^ 2)
      with ((4 * a * c - b ^ 2) / (4 * a) * (4 * a)) by (field; lra).
    by apply Rmult_lt_0_compat. }
  lra.
Qed.

Lemma intersect_miss_fields tol in_range wrap tb dir pos :
  Detector.hit (Detector.intersect tol in_range wrap tb dir pos) = false →
  Detector.intersect tol in_range wrap tb dir pos = Detector.miss.
Proof.
  unfold Detector.intersect.
  repeat (case_bool_decide; [done|]).
  by destruct (_ && _).
Qed.

(** The selected root solves the quadratic. *)
Lemma chosen_root_solves tb dir pos :
  0 < Detector.quad_a tb dir → 0 <= Detector.discriminant tb dir pos →
  Detector.quad_a tb dir * Detector.chosen_root tb dir pos ^ 2
    + Detector.quad_b tb dir pos * Detector.chosen_root tb dir pos
    + Detector.quad_c tb pos = 0.
Proof.
  intros Ha Hdisc.
  pose proof (sqrt_sqrt _ Hdisc) as Hs.
  unfold Detector.chosen_root. unfold Detector.discriminant in *.
  set (a := Detector.quad_a tb dir) in *.
  set (b := Detector.quad_b tb dir pos) in *.
  set (c := Detector.quad_c tb pos) in *.
  set (s := sqrt (b ^ 2 - 4 * a * c)) in *.
  assert (a ≠ 0) by lra.
  destruct (Detector.inside tb).
  - replace (a * ((- b + s) / (2 * a)) ^ 2 + b * ((- b + s) / (2 * a)) + c)
      with ((s * s - (b ^ 2 - 4 * a * c)) / (4 * a)) by (field; done).
    rewrite Hs. field. done.
  - replace (a * ((- b - s) / (2 * a)) ^ 2 + b * ((- b - s) / (2 * a)) + c)
      with ((s * s - (b ^ 2 - 4 * a * c)) / (4 * a)) by (field; done).
    rewrite Hs. field. done.
Qed.

(** A sanity property of the tube model: the point reported for a hit
    lies on the tube surface, within the axial bounds. *)
Lemma tube_hit_on_surface tol in_range wrap tb dir pos :
  0 <= tol →
  Detector.hit (Detector.intersect tol in_range wrap tb dir pos) = true →
  ∃ p, Detector.globalPoint (Detector.intersect tol in_range wrap tb dir pos) = Some p ∧
       Detector.radial_dist2 tb p = Detector.radius tb ^ 2 ∧
       Rabs (Detector.axial_coord tb p) <= 1.
Proof.
  intros Htol. unfold Detector.intersect.
  case_bool_decide as Ha; [done|].
  case_bool_decide as Hd; [done|].
  destruct (in_range tb dir pos _); [|done]. cbn [andb].
  unfold Detector.within_axial_bounds. case_bool_decide as Hax; [|done].
  intros _. eexists. split; [reflexivity|]. split; [|done].
  apply Rminus_diag_uniq. rewrite radial_dist2_along_ray.
  apply chosen_root_solves; lra.
Qed.

Lemma axial_coord_along_ray tb dir pos t :
  Detector.axial_coord tb (vadd pos (vscale t dir))
    = Detector.axial_coord tb pos
      + t * (dot dir (Detector.e_x tb) / Detector.s_x tb).
Proof.
  unfold Detector.axial_coord, Detector.vsub, dot, vadd, vscale, vneg, Rdiv.
  simpl. ring.
Qed.

(** Cauchy-Schwarz for the radial projections of position and direction. *)
Lemma quad_b_bound tb dir pos :
  Detector.quad_b tb dir pos ^ 2
    <= 4 * Detector.quad_a tb dir * Detector.radial_dist2 tb pos.
Proof.
  unfold Detector.quad_a, Detector.quad_b, Detector.radial_dist2.
  set (py := dot (Detector.vsub pos (Detector.origin tb)) (Detector.e_y tb)).
  set (pz := dot (Detector.vsub pos (Detector.origin tb)) (Detector.e_z tb)).
  set (dy := dot dir (Detector.e_y tb)).
  set (dz := dot dir (Detector.e_z tb)).
  pose proof (pow2_ge_0 (py * dz - pz * dy)).
  assert (4 * (dy ^ 2 + dz ^ 2) * (py ^ 2 + pz ^ 2) - (2 * (py * dy + pz * dz)) ^ 2
          = 4 * (py * dz - pz * dy) ^ 2) as Heq by ring.
  lra.
Qed.

(** From a point at distance [r0 <= R] from the axis, a root of the
    quadratic is at least the remaining radial distance away, measured in
    radial speed: [(R - r0)² <= a t²]. *)
Lemma root_radial_travel (a b rd R r0 t : R) :
  0 <= a → 0 <= r0 → r0 <= R → r0 ^ 2 = rd →
  b ^ 2 <= 4 * a * rd →
  a * t ^ 2 + b * t + (rd - R ^ 2) = 0 →
  (R - r0) ^ 2 <= a * t ^ 2.
Proof.
  intros Ha Hr0 HR Hrd Hcs Hroot.
  destruct (Rle_or_lt ((R - r0) ^ 2) (a * t ^ 2)) as [|Hlt]; [done|exfalso].
  set (m := a * t ^ 2) in *.
  assert (Hm : 0 <= m) by (unfold m; simpl; nra).
  assert (Hbt2 : (b * t) ^ 2 <= 4 * rd * m).
  { unfold m. replace ((b * t) ^ 2) with (b ^ 2 * t ^ 2) by ring.
    replace (4 * rd * (a * t ^ 2)) with (4 * a * rd * t ^ 2) by ring.
    apply Rmult_le_compat_r; [simpl; nra|done]. }
  assert (Hsum : b * t + m = R ^ 2 - rd) by lra.
  assert (R ^ 2 - rd = (R - r0) ^ 2 + 2 * r0 * (R - r0)) by (rewrite <- Hrd; ring).
  assert (Hbt' : b * t <= 2 * r0 * (R - r0)).
  { destruct (Rle_or_lt (b * t) (2 * r0 * (R - r0))) as [|Hgt]; [done|exfalso].
    assert (0 <= 2 * r0 * (R - r0)) by nra.
    assert ((2 * r0 * (R - r0)) ^ 2 < (b * t) ^ 2) by (simpl; nra).
    assert (4 * rd * m <= (2 * r0 * (R - r0)) ^ 2).
    { rewrite <- Hrd.
      replace ((2 * r0 * (R - r0)) ^ 2) with (4 * r0 ^ 2 * (R - r0) ^ 2) by ring.
      apply Rmult_le_compat_l; [simpl; nra|lra]. }
    lra. }
  lra.
Qed.

(** A ray whose axial coordinate changes by [t * da] leaves the bounds
    when [t] is large against the axial speed. *)
Lemma axial_escape (a t da ax0 D : R) :
  0 <= a → D <= a * t ^ 2 →
  a * (1 + Rabs ax0) ^ 2 < D * da ^ 2 →
  1 < Rabs (ax0 + t * da).
Proof.
  intros Ha HD Hnear.
  destruct (Rlt_or_le 1 (Rabs (ax0 + t * da))) as [|Hle]; [done|exfalso].
  assert (Habs : Rabs (t * da) <= 1 + Rabs ax0).
  { replace (t * da) with ((ax0 + t * da) + - ax0) by ring.
    eapply Rle_trans; [apply Rabs_triang|]. rewrite Rabs_Ropp. lra. }
  assert (Hsq : (t * da) ^ 2 <= (1 + Rabs ax0) ^ 2).
  { rewrite <- (pow2_abs (t * da)).
    pose proof (Rabs_pos (t * da)). pose proof (Rabs_pos ax0).
    apply pow_incr. lra. }
  assert (H1 : a * (t * da) ^ 2 <= a * (1 + Rabs ax0) ^ 2)
    by (by apply Rmult_le_compat_l).
  assert (H2 : D * da ^ 2 <= a * t ^ 2 * da ^ 2).
  { apply Rmult_le_compat_r; [apply pow2_ge_0|done]. }
  replace (a * t ^ 2 * da ^ 2) with (a * (t * da) ^ 2) in H2 by ring.
  lra.
Qed.

(** A ray through the interior that runs nearly parallel to the axis
    reaches the wall only beyond an open end of the tube. *)
Lemma nearly_axial_leaves tb dir pos :
  0 < Detector.quad_a tb dir → 0 <= Detector.discriminant tb dir pos →
  nearly_axial tb dir pos → leaves_through_end tb dir pos.
Proof.
  intros Ha Hdisc [Hin Hnear]. unfold leaves_through_end.
  rewrite axial_coord_along_ray.
  assert (Hrd : 0 <= Detector.radial_dist2 tb pos).
  { unfold Detector.radial_dist2.
    pose proof (pow2_ge_0 (dot (Detector.vsub pos (Detector.origin tb)) (Detector.e_y tb))).
    pose proof (pow2_ge_0 (dot (Detector.vsub pos (Detector.origin tb)) (Detector.e_z tb))).
    lra. }
  apply (axial_escape (Detector.quad_a tb dir) _ _ _
           ((Detector.radius tb - sqrt (Detector.radial_dist2 tb pos)) ^ 2));
    [lra| |done].
  apply (root_radial_travel _ (Detector.quad_b tb dir pos)
           (Detector.radial_dist2 tb pos)).
  - lra.
  - apply sqrt_pos.
  - done.
  - simpl. rewrite Rmult_1_r. by apply sqrt_sqrt.
  - apply quad_b_bound.
  - pose proof (chosen_root_solves tb dir pos Ha Hdisc) as Hroot.
    unfold Detector.quad_c in Hroot. exact Hroot.
Qed.

(** C4. For every placement of the tube, a ray is reported as a miss,
    with the position and the local coordinates NaN-filled, when its
    line stays at a radius greater than the tube radius, when it has no
    radial direction component (degenerate quadratic), when the
    discriminant is negative, when the selected intersection with the
    cylinder lies outside the axial bounds of the tube, and in particular
    when it passes through the interior nearly parallel to the axis; and
    whenever [hit] is false both position fields are NaN-filled. *)
Theorem tube_intersect_miss tol in_range wrap tb dir pos :
  0 <= tol →
  (passes_outside tb dir pos ∨
   Detector.quad_a tb dir <= tol ∨
   Detector.discriminant tb dir pos < 0 ∨
   leaves_through_end tb dir pos ∨
   nearly_axial tb dir pos →
   Detector.intersect tol in_range wrap tb dir pos = Detector.miss) ∧
  (Detector.hit (Detector.intersect tol in_range wrap tb dir pos) = false →
   Detector.globalPoint (Detector.intersect tol in_range wrap tb dir pos) = None ∧
   Detector.localCoords (Detector.intersect tol in_range wrap tb dir pos) = None).
Proof.
  intros Htol. split.
  - intros H. unfold Detector.intersect.
    case_bool_decide as Ha; [done|].
    case_bool_decide as Hd; [done|].
    assert (Hend : leaves_through_end tb dir pos).
    { destruct H as [Hout|[Hdeg|[Hneg|[Hend|Hnear]]]]; [|lra|lra|done|].
      - exfalso. apply Hd. apply outside_negative_discriminant; [done|lra].
      - apply nearly_axial_leaves; [lra|lra|done]. }
    unfold leaves_through_end in Hend.
    unfold Detector.within_axial_bounds.
    rewrite (bool_decide_eq_false_2 (Rabs _ <= 1)) by lra.
    by rewrite andb_false_r.
  - intros Hhit. by rewrite (intersect_miss_fields _ _ _ _ _ _ Hhit).
Qed.

Lemma radius_tube_at o : Detector.radius (tube_at o) = 1.
Proof.
  unfold Detector.radius, norm, dot. simpl.
  replace (1 * 1 * (1 * 1) + 1 * 0 * (1 * 0) + 1 * 0 * (1 * 0) + 1 * 0 * (1 * 0))
    with 1 by ring.
  apply sqrt_1.
Qed.

(** The five rays of [test_intersect_tube_miss], on the tube at the origin
    and on the moved tube, and a ray along the axis through the centre:
    all are misses. *)
Lemma tube_intersect_miss_witness :
  Detector.intersect 0 forward as_is (tube_at o_default)
    (mkVec4 1 0 (1 / 10) 0) (mkVec4 0 (- (11 / 10)) 0 1) = Detector.miss ∧
  Detector.intersect 0 forward as_is (tube_at o_default)
    (mkVec4 (-1) (-1) 0 0) (mkVec4 2 0 0 1) = Detector.miss ∧
  Detector.intersect 0 forward as_is (tube_at o_default)
    (mkVec4 0 (1 / 10) 1 0) (mkVec4 (5 / 10) (5 / 10) 0 1) = Detector.miss ∧
  Detector.intersect 0 forward as_is (tube_at o_moved)
    (mkVec4 1 0 0 0) (mkVec4 0 0 0 1) = Detector.miss ∧
  Detector.intersect 0 forward as_is (tube_at o_moved)
    (mkVec4 1 0 0 0) (mkVec4 0 (- (3 / 10)) 1 1) = Detector.miss ∧
  Detector.intersect 0 forward as_is (tube_at o_default)
    (mkVec4 0 0 1 0) (mkVec4 0 0 0 1) = Detector.miss.
Proof.
  split; [|split; [|split; [|split; [|split]]]].
  - apply (proj1 (tube_intersect_miss 0 forward as_is (tube_at o_default)
                    (mkVec4 1 0 (1 / 10) 0) (mkVec4 0 (- (11 / 10)) 0 1)
                    (Rle_refl 0))).
    left. intros t. rewrite radius_tube_at.
    unfold Detector.radial_dist2, Detector.vsub, dot, vadd, vscale, vneg.
    simpl. nra.
  - apply (proj1 (tube_intersect_miss 0 forward as_is (tube_at o_default)
                    (mkVec4 (-1) (-1) 0 0) (mkVec4 2 0 0 1) (Rle_refl 0))).
    right; right; left.
    unfold Detector.discriminant, Detector.quad_a, Detector.quad_b,
      Detector.quad_c. rewrite radius_tube_at.
    unfold Detector.radial_dist2, Detector.vsub, dot, vadd, vscale, vneg.
    simpl. lra.
  - apply (proj1 (tube_intersect_miss 0 forward as_is (tube_at o_default)
                    (mkVec4 0 (1 / 10) 1 0) (mkVec4 (5 / 10) (5 / 10) 0 1)
                    (Rle_refl 0))).
    right; right; right; right.
    unfold nearly_axial. rewrite radius_tube_at.
    assert (Hrd : Detector.radial_dist2 (tube_at o_default)
                    (mkVec4 (5 / 10) (5 / 10) 0 1) = / 2).
    { unfold Detector.radial_dist2, Detector.vsub, dot, vadd, vneg. simpl. lra. }
    assert (Ha : Detector.quad_a (tube_at o_default) (mkVec4 0 (1 / 10) 1 0) = / 100).
    { unfold Detector.quad_a, dot. simpl. lra. }
    assert (Hax : Detector.axial_coord (tube_at o_default)
                    (mkVec4 (5 / 10) (5 / 10) 0 1) = 0).
    { unfold Detector.axial_coord, Detector.vsub, dot, vadd, vneg. simpl. lra. }
    assert (Hda : dot (mkVec4 0 (1 / 10) 1 0) (Detector.e_x (tube_at o_default))
                  / Detector.s_x (tube_at o_default) = 1).
    { unfold dot. simpl. lra. }
    rewrite Hrd, Ha, Hax, Hda, Rabs_R0.
    assert (Hs : 0 <= sqrt (/ 2) <= 71 / 100).
    { split; [apply sqrt_pos|]. apply sqrt_le_iff; lra. }
    split; [lra|]. nra.
  - apply (proj1 (tube_intersect_miss 0 forward as_is (tube_at o_moved)
                    (mkVec4 1 0 0 0) (mkVec4 0 0 0 1) (Rle_refl 0))).
    right; right; right; left.
    unfold leaves_through_end. rewrite axial_coord_along_ray.
    set (t := Detector.chosen_root _ _ _).
    replace (Detector.axial_coord (tube_at o_moved) (mkVec4 0 0 0 1)
             + t * (dot (mkVec4 1 0 0 0) (Detector.e_x (tube_at o_moved))
                    / Detector.s_x (tube_at o_moved)))
      with (- (12 / 10)).
    + rewrite Rabs_left; lra.
    + unfold Detector.axial_coord, Detector.vsub, dot, vadd, vneg. simpl. field.
  - apply (proj1 (tube_intersect_miss 0 forward as_is (tube_at o_moved)
                    (mkVec4 1 0 0 0) (mkVec4 0 (- (3 / 10)) 1 1) (Rle_refl 0))).
    right; right; left.
    unfold Detector.discriminant, Detector.quad_a, Detector.quad_b,
      Detector.quad_c. rewrite radius_tube_at.
    unfold Detector.radial_dist2, Detector.vsub, dot, vadd, vscale, vneg.
    simpl. lra.
  - apply (proj1 (tube_intersect_miss 0 forward as_is (tube_at o_default)
                    (mkVec4 0 0 1 0) (mkVec4 0 0 0 1) (Rle_refl 0))).
    right; left. unfold Detector.quad_a, dot. simpl. lra.
Defined.

(** *** Agreement with the hits of [test_intersect_tube_2points] *)

Lemma intersect_hit tol in_range wrap tb dir pos :
  tol < Detector.quad_a tb dir → 0 <= Detector.discriminant tb dir pos →
  in_range tb dir pos (Detector.chosen_root tb dir pos) = true →
  Rabs (Detector.axial_coord tb
          (vadd pos (vscale (Detector.chosen_root tb dir pos) dir))) <= 1 →
  Detector.hit (Detector.intersect tol in_range wrap tb dir pos) = true ∧
  Detector.globalPoint (Detector.intersect tol in_range wrap tb dir pos)
    = Some (vadd pos (vscale (Detector.chosen_root tb dir pos) dir)).
Proof.
  intros Ha Hd Hr Hax. unfold Detector.intersect.
  rewrite bool_decide_eq_false_2 by lra.
  rewrite bool_decide_eq_false_2 by lra.
  rewrite Hr. unfold Detector.within_axial_bounds.
  rewrite bool_decide_eq_true_2 by done. done.
Qed.

Lemma sqrt_of_square_value x s : 0 <= s → x = s * s → sqrt x = s.
Proof. intros Hs ->. by apply sqrt_square. Qed.

(** The first and third ray of the test hit the inside of the default
    tube at [(-1, 0, 0)] and [(-1, 0, 0.3)]; on the moved tube, the ray
    that misses for axial zoom 1 hits at [(1.4, 0, 0)] for axial zoom 2. *)
Lemma tube_two_points_hits :
  Detector.globalPoint
    (Detector.intersect 0 forward as_is (tube_at o_default)
       (mkVec4 (- (1 / 10)) 0 0 0) (mkVec4 50 0 0 1))
    = Some (mkVec4 (-1) 0 0 1) ∧
  Detector.globalPoint
    (Detector.intersect 0 forward as_is (tube_at o_default)
       (mkVec4 (-1) 0 0 0) (mkVec4 2 0 (3 / 10) 1))
    = Some (mkVec4 (-1) 0 (3 / 10) 1) ∧
  Detector.globalPoint
    (Detector.intersect 0 forward as_is tube_long
       (mkVec4 1 0 0 0) (mkVec4 0 0 0 1))
    = Some (mkVec4 (14 / 10) 0 0 1).
Proof.
  assert (Hrl : Detector.radius tube_long = 1) by apply (radius_tube_at o_moved).
  split; [|split].
  - assert (Ha : Detector.quad_a (tube_at o_default) (mkVec4 (- (1 / 10)) 0 0 0)
                 = / 100) by (unfold Detector.quad_a, dot; simpl; lra).
    assert (Hb : Detector.quad_b (tube_at o_default) (mkVec4 (- (1 / 10)) 0 0 0)
                   (mkVec4 50 0 0 1) = - 10)
      by (unfold Detector.quad_b, Detector.vsub, dot, vadd, vneg; simpl; lra).
    assert (Hdisc : Detector.discriminant (tube_at o_default)
                      (mkVec4 (- (1 / 10)) 0 0 0) (mkVec4 50 0 0 1) = 4 / 100).
    { unfold Detector.discriminant. rewrite Ha, Hb.
      unfold Detector.quad_c. rewrite radius_tube_at.
      unfold Detector.radial_dist2, Detector.vsub, dot, vadd, vneg. simpl. lra. }
    assert (Ht : Detector.chosen_root (tube_at o_default)
                   (mkVec4 (- (1 / 10)) 0 0 0) (mkVec4 50 0 0 1) = 510).
    { unfold Detector.chosen_root. rewrite Ha, Hb, Hdisc.
      rewrite (sqrt_of_square_value (4 / 100) (2 / 10)) by lra.
      cbn [Detector.inside tube_at]. lra. }
    destruct (intersect_hit 0 forward as_is (tube_at o_default)
                (mkVec4 (- (1 / 10)) 0 0 0) (mkVec4 50 0 0 1)) as [_ ->].
    + rewrite Ha. lra.
    + rewrite Hdisc. lra.
    + rewrite Ht. unfold forward. apply bool_decide_eq_true_2. lra.
    + rewrite Ht. unfold Detector.axial_coord, Detector.vsub, dot, vadd, vscale, vneg.
      simpl. rewrite Rabs_right; lra.
    + rewrite Ht. unfold vadd, vscale. simpl. f_equal. f_equal; lra.
  - assert (Ha : Detector.quad_a (tube_at o_default) (mkVec4 (-1) 0 0 0) = 1)
      by (unfold Detector.quad_a, dot; simpl; lra).
    assert (Hb : Detector.quad_b (tube_at o_default) (mkVec4 (-1) 0 0 0)
                   (mkVec4 2 0 (3 / 10) 1) = - 4)
      by (unfold Detector.quad_b, Detector.vsub, dot, vadd, vneg; simpl; lra).
    assert (Hdisc : Detector.discriminant (tube_at o_default)
                      (mkVec4 (-1) 0 0 0) (mkVec4 2 0 (3 / 10) 1) = 4).
    { unfold Detector.discriminant. rewrite Ha, Hb.
      unfold Detector.quad_c. rewrite radius_tube_at.
      unfold Detector.radial_dist2, Detector.vsub, dot, vadd, vneg. simpl. lra. }
    assert (Ht : Detector.chosen_root (tube_at o_default)
                   (mkVec4 (-1) 0 0 0) (mkVec4 2 0 (3 / 10) 1) = 3).
    { unfold Detector.chosen_root. rewrite Ha, Hb, Hdisc.
      rewrite (sqrt_of_square_value 4 2) by lra.
      cbn [Detector.inside tube_at]. lra. }
    destruct (intersect_hit 0 forward as_is (tube_at o_default)
                (mkVec4 (-1) 0 0 0) (mkVec4 2 0 (3 / 10) 1)) as [_ ->].
    + rewrite Ha. lra.
    + rewrite Hdisc. lra.
    + rewrite Ht. unfold forward. apply bool_decide_eq_true_2. lra.
    + rewrite Ht. unfold Detector.axial_coord, Detector.vsub, dot, vadd, vscale, vneg.
      simpl. rewrite Rabs_right; lra.
    + rewrite Ht. unfold vadd, vscale. simpl. f_equal. f_equal; lra.
  - assert (Ha : Detector.quad_a tube_long (mkVec4 1 0 0 0) = 1)
      by (unfold Detector.quad_a, dot; simpl; lra).
    assert (Hb : Detector.quad_b tube_long (mkVec4 1 0 0 0) (mkVec4 0 0 0 1)
                 = - (16 / 10))
      by (unfold Detector.quad_b, Detector.vsub, dot, vadd, vneg; simpl; lra).
    assert (Hdisc : Detector.discriminant tube_long (mkVec4 1 0 0 0)
                      (mkVec4 0 0 0 1) = 144 / 100).
    { unfold Detector.discriminant. rewrite Ha, Hb.
      unfold Detector.quad_c. rewrite Hrl.
      unfold Detector.radial_dist2, Detector.vsub, dot, vadd, vneg. simpl. lra. }
    assert (Ht : Detector.chosen_root tube_long (mkVec4 1 0 0 0) (mkVec4 0 0 0 1)
                 = 14 / 10).
    { unfold Detector.chosen_root. rewrite Ha, Hb, Hdisc.
      rewrite (sqrt_of_square_value (144 / 100) (12 / 10)) by lra.
      cbn [Detector.inside tube_long]. lra. }
    destruct (intersect_hit 0 forward as_is tube_long
                (mkVec4 1 0 0 0) (mkVec4 0 0 0 1)) as [_ ->].
    + rewrite Ha. lra.
    + rewrite Hdisc. lra.
    + rewrite Ht. unfold forward. apply bool_decide_eq_true_2. lra.
    + rewrite Ht. unfold Detector.axial_coord, Detector.vsub, dot, vadd, vscale, vneg.
      simpl. rewrite Rabs_left; lra.
    + rewrite Ht. unfold vadd, vscale. simpl. f_equal. f_equal; lra.
Qed.

(** * Further properties of the apertures *)

(** ** add_colpos *)

(** X1. [BaseAperture.add_colpos] raises [ValueError] on a batch that
    already has a ['pos'] column.  On a batch without one it keeps the
    length and every other column and adds a ['pos'] column with one row
    per photon, each row the homogeneous point [(0, 0, 0, 1)]; a second
    call on the result therefore raises. *)
Theorem add_colpos_adds_homogeneous_points t :
  (is_Some (cols t !! "pos") → add_colpos t = Raise ValueError) ∧
  (cols t !! "pos" = None →
     ∃ t', add_colpos t = Ok t' ∧
       nrows t' = nrows t ∧
       cols t' !! "pos" = Some (ColVec (replicate (nrows t) (mkVec4 0 0 0 1))) ∧
       (∀ c, c ≠ "pos" → cols t' !! c = cols t !! c) ∧
       add_colpos t' = Raise ValueError).
Proof.
  unfold add_colpos. split.
  - intros [c Hc]. by rewrite Hc.
  - intros Hnone. rewrite Hnone. eexists. split; [reflexivity|].
    split; [done|]. split; [apply lookup_set_col_eq|]. split.
    + intros c Hc. by apply lookup_set_col_ne.
    + by rewrite lookup_set_col_eq.
Qed.

(** The batch [seen_photon] has no ['pos'] column; [two_photons] with one
    added has. *)
Lemma add_colpos_adds_homogeneous_points_witness :
  (∃ t', add_colpos seen_photon = Ok t' ∧
     nrows t' = nrows seen_photon ∧
     cols t' !! "pos"
       = Some (ColVec (replicate (nrows seen_photon) (mkVec4 0 0 0 1))) ∧
     (∀ c, c ≠ "pos" → cols t' !! c = cols seen_photon !! c) ∧
     add_colpos t' = Raise ValueError) ∧
  add_colpos (set_col "pos" (ColVec [mkVec4 0 0 0 1; mkVec4 0 0 0 1]) two_photons) = Raise ValueError.
Proof.
  split.
  - apply (proj2 (add_colpos_adds_homogeneous_points seen_photon)). reflexivity.
  - apply (proj1 (add_colpos_adds_homogeneous_points
                    (set_col "pos" (ColVec [mkVec4 0 0 0 1; mkVec4 0 0 0 1]) two_photons))).
    rewrite lookup_set_col_eq. by eexists.
Defined.

(** ** The call of a flat aperture, continued *)

(** The call, once the random coordinates are drawn: the two column reads
    on the positioned table. *)
Lemma call_unfold ap t g x y g' :
  base_contract (element ap) →
  generate_local_xy ap (nrows t) g = (x, y, g') →
  call ap t g =
    (dir ← get_col "dir" (positioned (element ap) x y t);
     match dir with
     | ColVec ds =>
         prob ← get_col "probability" (positioned (element ap) x y t);
         match prob with
         | ColScalar ps =>
             Ok (set_col "probability"
                   (ColScalar (zip_with Rmult ps (cos_factor (element ap) <$> ds)))
                   (positioned (element ap) x y t), g')
         | ColVec _ => Raise ValueError
         end
     | ColScalar _ => Raise ValueError
     end).
Proof.
  intros Hb Eg. unfold call.
  assert (Hrows : nrows (with_id (element ap)
            (add_output_cols (element ap) t (loc_coos_name (element ap)))) = nrows t).
  { unfold with_id. destruct (id_col (element ap)); simpl; apply (Hb t _). }
  fold (with_id (element ap)
          (add_output_cols (element ap) t (loc_coos_name (element ap)))).
  rewrite Hrows, Eg.
  fold (with_local (element ap) x y (with_id (element ap)
          (add_output_cols (element ap) t (loc_coos_name (element ap))))).
  fold (positioned (element ap) x y t).
  destruct (get_col "dir" (positioned (element ap) x y t)) as [[ds|ds]|]; [done| |done].
  cbn [mbind result_bind].
  destruct (get_col "probability" (positioned (element ap) x y t))
    as [[ps|ps]|]; [|done|done].
  cbn [mbind result_bind]. by rewrite <- list_fmap_compose.
Qed.

Lemma lookup_positioned_missing el x y t c :
  base_contract el → c ≠ "pos" → ¬ own_name el c →
  cols t !! c = None → cols (positioned el x y t) !! c = None.
Proof.
  intros Hb Hpos Hown Hc. unfold own_name in Hown.
  rewrite lookup_positioned_other by tauto.
  destruct (cols (add_output_cols el t (loc_coos_name el)) !! c) eqn:E; [|done].
  destruct (Hb t (loc_coos_name el)) as (_ & _ & Hnew).
  destruct (Hnew c Hc) as [|]; [by eexists|tauto|tauto].
Qed.

(** X2. A batch without a ['dir'] column makes the call raise [KeyError],
    and so does a batch with directions but without a ['probability']
    column, provided the element does not itself create a column of that
    name. *)
Theorem flat_call_missing_column ap t g :
  base_contract (element ap) →
  (cols t !! "dir" = None → ¬ own_name (element ap) "dir" →
     call ap t g = Raise KeyError) ∧
  (∀ ds, names_ok (element ap) →
     cols t !! "dir" = Some (ColVec ds) →
     cols t !! "probability" = None → ¬ own_name (element ap) "probability" →
     call ap t g = Raise KeyError).
Proof.
  intros Hb.
  destruct (generate_local_xy ap (nrows t) g) as [[x y] g'] eqn:Eg.
  split.
  - intros Hd Hown. rewrite (call_unfold ap t g x y g' Hb Eg).
    unfold get_col. by rewrite (lookup_positioned_missing _ x y t "dir").
  - intros ds Hn Hd Hp Hown. rewrite (call_unfold ap t g x y g' Hb Eg).
    unfold get_col.
    rewrite (lookup_positioned_core _ x y t "dir" _ Hb Hn (or_introl eq_refl) Hd).
    cbn [mbind result_bind].
    by rewrite (lookup_positioned_missing _ x y t "probability").
Qed.

Lemma unit_square_not_own c :
  c ≠ "y" → c ≠ "z" → ¬ own_name unit_square c.
Proof.
  intros Hy Hz [H|[[H|H]|H]]; simpl in *; try done.
  by apply elem_of_nil in H.
Qed.

Lemma flat_call_missing_column_witness :
  call (RectangleAperture unit_square) no_dir quarter_rng = Raise KeyError ∧
  call (RectangleAperture unit_square) no_probability quarter_rng = Raise KeyError.
Proof.
  split.
  - apply (proj1 (flat_call_missing_column (RectangleAperture unit_square)
                    no_dir quarter_rng unit_square_contract)).
    + reflexivity.
    + by apply unit_square_not_own.
  - apply (proj2 (flat_call_missing_column (RectangleAperture unit_square)
                    no_probability quarter_rng unit_square_contract)
             [mkVec4 (-1) 0 0 0]).
    + exact unit_square_names.
    + reflexivity.
    + reflexivity.
    + by apply unit_square_not_own.
Defined.

(** X3. When an id column is requested, every row of that column in the
    returned batch holds the element's id number, provided the id column
    is not one of the columns the call writes afterwards. *)
Theorem flat_call_writes_id ap t g ds ps c :
  base_contract (element ap) → names_ok (element ap) → batch_ok t ds ps →
  id_col (element ap) = Some c →
  c ≠ "pos" → ¬ requested (loc_coos_name (element ap)) c →
  ∃ t' g',
    call ap t g = Ok (t', g') ∧
    cols t' !! c = Some (ColScalar (replicate (nrows t) (id_num (element ap)))).
Proof.
  intros Hb Hn Hok Hid Hpos Hloc.
  destruct (call_returns ap t g ds ps Hb Hn Hok) as (x & y & g' & _ & Hcall).
  eexists _, g'. split; [exact Hcall|].
  destruct Hn as [Hidn _]. destruct (Hidn c Hid) as [_ Hprob].
  rewrite lookup_set_col_ne by done.
  unfold positioned. rewrite lookup_set_col_ne by done.
  rewrite lookup_with_local by done.
  unfold with_id, set_col_scalar. rewrite Hid, lookup_set_col_eq.
  do 3 f_equal. apply (Hb t _).
Qed.

Lemma numbered_square_contract : base_contract numbered_square.
Proof. by apply add_cols_fill_contract. Qed.

Lemma numbered_square_names : names_ok numbered_square.
Proof.
  split.
  - intros c [= <-]. split; discriminate.
  - intros cx cy [= <- <-]. repeat split; discriminate.
Qed.

Lemma flat_call_writes_id_witness :
  ∃ t' g',
    call (RectangleAperture numbered_square) two_photons quarter_rng = Ok (t', g') ∧
    cols t' !! "aperture" = Some (ColScalar (replicate (nrows two_photons) 3)).
Proof.
  apply (flat_call_writes_id (RectangleAperture numbered_square) two_photons
           quarter_rng _ _ "aperture"
           numbered_square_contract numbered_square_names two_photons_ok).
  - reflexivity.
  - discriminate.
  - simpl. intros [H|H]; discriminate H.
Defined.

Lemma dot_to_global el x y e :
  dot (to_global el x y) e
    = dot (center el) e + x * dot (v_y el) e + y * dot (v_z el) e.
Proof. unfold dot, to_global, vadd, vscale. simpl. ring. Qed.

Lemma to_global_plane el x y :
  plane_frame el →
  vw (to_global el x y) = 1 ∧
  dot (to_global el x y) (e_x el) = dot (center el) (e_x el).
Proof.
  intros (Hc & Hy & Hz & Hyx & Hzx). split.
  - unfold to_global, vadd, vscale. simpl. rewrite Hc, Hy, Hz. ring.
  - rewrite dot_to_global, Hyx, Hzx. ring.
Qed.

(** X4. For a geometry whose [center] is a point and whose [v_y], [v_z]
    are directions orthogonal to the normal [e_x], every position the call
    writes is a homogeneous point (fourth entry 1) lying in the aperture
    plane: [pos · e_x = center · e_x]. *)
Theorem flat_call_positions_in_plane ap t g ds ps :
  base_contract (element ap) → names_ok (element ap) → batch_ok t ds ps →
  plane_frame (element ap) →
  ∃ t' g' pos,
    call ap t g = Ok (t', g') ∧
    cols t' !! "pos" = Some (ColVec pos) ∧
    length pos = nrows t ∧
    ∀ p, p ∈ pos →
      vw p = 1 ∧ dot p (e_x (element ap)) = dot (center (element ap)) (e_x (element ap)).
Proof.
  intros Hb Hn Hok Hframe.
  destruct (call_returns ap t g ds ps Hb Hn Hok) as (x & y & g' & Hgen & Hcall).
  destruct (generate_local_xy_length _ _ _ _ _ _ Hgen) as [Hx Hy].
  eexists _, g', _. split; [exact Hcall|]. split; [|split].
  - rewrite lookup_set_col_ne by done. apply lookup_positioned_pos.
  - rewrite length_zip_with. lia.
  - intros p Hp. apply list_elem_of_lookup in Hp as [j Hj].
    rewrite lookup_zip_with in Hj.
    destruct (x !! j) as [xj|]; [|done]. simpl in Hj.
    destruct (y !! j) as [yj|]; [|done]. injection Hj as <-.
    by apply to_global_plane.
Qed.

Lemma unit_square_frame : plane_frame unit_square.
Proof. unfold plane_frame, dot. simpl. repeat split; ring. Qed.

Lemma flat_call_positions_in_plane_witness :
  ∃ t' g' pos,
    call (RectangleAperture unit_square) two_photons quarter_rng = Ok (t', g') ∧
    cols t' !! "pos" = Some (ColVec pos) ∧
    length pos = nrows two_photons ∧
    ∀ p, p ∈ pos →
      vw p = 1 ∧ dot p (e_x unit_square) = dot (center unit_square) (e_x unit_square).
Proof.
  apply (flat_call_positions_in_plane (RectangleAperture unit_square) two_photons
           quarter_rng _ _ unit_square_contract unit_square_names two_photons_ok
           unit_square_frame).
Defined.

Lemma to_global_project el x y :
  dot (v_y el) (v_z el) = 0 →
  dot (to_global el x y) (v_y el) - dot (center el) (v_y el)
    = x * dot (v_y el) (v_y el) ∧
  dot (to_global el x y) (v_z el) - dot (center el) (v_z el)
    = y * dot (v_z el) (v_z el).
Proof.
  intros H. rewrite !dot_to_global, H.
  replace (dot (v_z el) (v_y el)) with (dot (v_y el) (v_z el))
    by (unfold dot; ring).
  rewrite H. split; ring.
Qed.

(** X5. Round trip between the position column and the local-coordinate
    columns of the returned batch: when [v_y] and [v_z] are orthogonal and
    non-zero, the local coordinates of each photon are recovered from its
    position by projecting [pos - center] on [v_y] and on [v_z]. *)
Theorem flat_call_local_from_position ap t g ds ps cx cy :
  base_contract (element ap) → names_ok (element ap) → batch_ok t ds ps →
  loc_coos_name (element ap) = Some (cx, cy) →
  dot (v_y (element ap)) (v_z (element ap)) = 0 →
  0 < dot (v_y (element ap)) (v_y (element ap)) →
  0 < dot (v_z (element ap)) (v_z (element ap)) →
  ∃ t' g' pos xs ys,
    call ap t g = Ok (t', g') ∧
    cols t' !! "pos" = Some (ColVec pos) ∧
    cols t' !! cx = Some (ColScalar xs) ∧
    cols t' !! cy = Some (ColScalar ys) ∧
    length pos = nrows t ∧ length xs = nrows t ∧ length ys = nrows t ∧
    ∀ j p xj yj, pos !! j = Some p → xs !! j = Some xj → ys !! j = Some yj →
      xj = (dot p (v_y (element ap)) - dot (center (element ap)) (v_y (element ap)))
             / dot (v_y (element ap)) (v_y (element ap)) ∧
      yj = (dot p (v_z (element ap)) - dot (center (element ap)) (v_z (element ap)))
             / dot (v_z (element ap)) (v_z (element ap)).
Proof.
  intros Hb Hn Hok Hloc Horth Hy Hz.
  destruct (call_returns ap t g ds ps Hb Hn Hok) as (x & y & g' & Hgen & Hcall).
  destruct (generate_local_xy_length _ _ _ _ _ _ Hgen) as [Hlx Hly].
  destruct (lookup_positioned_local _ x y t cx cy Hn Hloc) as [Hcx Hcy].
  pose proof Hn as [_ Hnames]. destruct (Hnames cx cy Hloc) as (? & ? & ? & ? & ? & ? & ?).
  eexists _, g', _, x, y. split; [exact Hcall|].
  split; [rewrite lookup_set_col_ne by done; apply lookup_positioned_pos|].
  split; [by rewrite lookup_set_col_ne|].
  split; [by rewrite lookup_set_col_ne|].
  split; [rewrite length_zip_with; lia|]. split; [done|]. split; [done|].
  intros j p xj yj Hp Hxj Hyj.
  rewrite lookup_zip_with, Hxj in Hp. simpl in Hp. rewrite Hyj in Hp.
  injection Hp as <-.
  destruct (to_global_project (element ap) xj yj Horth) as [-> ->].
  split; field; lra.
Qed.

Lemma flat_call_local_from_position_witness :
  ∃ t' g' pos xs ys,
    call (RectangleAperture unit_square) two_photons quarter_rng = Ok (t', g') ∧
    cols t' !! "pos" = Some (ColVec pos) ∧
    cols t' !! "y" = Some (ColScalar xs) ∧
    cols t' !! "z" = Some (ColScalar ys) ∧
    length pos = nrows two_photons ∧ length xs = nrows two_photons ∧
    length ys = nrows two_photons ∧
    ∀ j p xj yj, pos !! j = Some p → xs !! j = Some xj → ys !! j = Some yj →
      xj = (dot p (v_y unit_square) - dot (center unit_square) (v_y unit_square))
             / dot (v_y unit_square) (v_y unit_square) ∧
      yj = (dot p (v_z unit_square) - dot (center unit_square) (v_z unit_square))
             / dot (v_z unit_square) (v_z unit_square).
Proof.
  apply (flat_call_local_from_position (RectangleAperture unit_square) two_photons
           quarter_rng _ _ "y" "z"
           unit_square_contract unit_square_names two_photons_ok eq_refl).
  - unfold dot. simpl. ring.
  - unfold dot. simpl. lra.
  - unfold dot. simpl. lra.
Defined.

Lemma nrows_set_col name col t : nrows (set_col name col t) = nrows t.
Proof. reflexivity. Qed.

(** The batch a call returns is again a batch a call accepts. *)
Lemma call_returns_batch ap t g ds ps :
  base_contract (element ap) → names_ok (element ap) → batch_ok t ds ps →
  ∃ t' g',
    call ap t g = Ok (t', g') ∧
    batch_ok t' ds (zip_with Rmult ps (cos_factor (element ap) <$> ds)).
Proof.
  intros Hb Hn Hok.
  destruct (call_returns ap t g ds ps Hb Hn Hok) as (x & y & g' & _ & Hcall).
  destruct Hok as (Hd & Hp & Hld & Hlp).
  eexists _, g'. split; [exact Hcall|]. split; [|split; [|split]].
  - rewrite lookup_set_col_ne by done.
    by apply lookup_positioned_core; [| |left|].
  - apply lookup_set_col_eq.
  - by rewrite nrows_set_col, nrows_positioned.
  - rewrite nrows_set_col, nrows_positioned by done.
    rewrite length_zip_with, length_fmap. lia.
Qed.

(** X6. The call composes with itself: the batch it returns can be handed
    to the same aperture again, the directions are still those of the
    input, and after two calls each probability has been multiplied twice
    by its clipped cosine factor. *)
Theorem flat_call_twice ap t g ds ps :
  base_contract (element ap) → names_ok (element ap) → batch_ok t ds ps →
  ∃ t1 g1 t2 g2 ps2,
    call ap t g = Ok (t1, g1) ∧
    call ap t1 g1 = Ok (t2, g2) ∧
    nrows t2 = nrows t ∧
    cols t2 !! "dir" = Some (ColVec ds) ∧
    cols t2 !! "probability" = Some (ColScalar ps2) ∧
    ∀ j p d, ps !! j = Some p → ds !! j = Some d →
      ps2 !! j = Some (p * clip (dot d (vneg (e_x (element ap)))) 0 1
                         * clip (dot d (vneg (e_x (element ap)))) 0 1).
Proof.
  intros Hb Hn Hok.
  destruct (call_returns_batch ap t g ds ps Hb Hn Hok) as (t1 & g1 & Hc1 & Hok1).
  destruct (call_returns_batch ap t1 g1 ds _ Hb Hn Hok1) as (t2 & g2 & Hc2 & Hok2).
  exists t1, g1, t2, g2. eexists. split; [exact Hc1|]. split; [exact Hc2|].
  destruct Hok as (_ & _ & Hl & _). destruct Hok2 as (Hd2 & Hp2 & Hl2 & _).
  split; [lia|]. split; [exact Hd2|]. split; [exact Hp2|].
  intros j p d Hp Hd.
  rewrite !lookup_zip_with, Hp. simpl. rewrite list_lookup_fmap, Hd. done.
Qed.

Lemma flat_call_twice_witness :
  ∃ t1 g1 t2 g2 ps2,
    call (RectangleAperture unit_square) two_photons quarter_rng = Ok (t1, g1) ∧
    call (RectangleAperture unit_square) t1 g1 = Ok (t2, g2) ∧
    nrows t2 = nrows two_photons ∧
    cols t2 !! "dir" = Some (ColVec [mkVec4 (-1) 0 0 0; mkVec4 1 0 0 0]) ∧
    cols t2 !! "probability" = Some (ColScalar ps2) ∧
    ∀ j p d, [1; / 2] !! j = Some p →
      [mkVec4 (-1) 0 0 0; mkVec4 1 0 0 0] !! j = Some d →
      ps2 !! j = Some (p * clip (dot d (vneg (e_x unit_square))) 0 1
                         * clip (dot d (vneg (e_x unit_square))) 0 1).
Proof.
  apply (flat_call_twice (RectangleAperture unit_square) two_photons quarter_rng
           _ _ unit_square_contract unit_square_names two_photons_ok).
Defined.

Lemma generate_local_xy_rng ap n g x y g' :
  generate_local_xy ap n g = (x, y, g') → g' = λ k, g (n + (n + k))%nat.
Proof. destruct ap; simpl; by intros [= _ _ <-]. Qed.

Lemma random_ext (n : nat) (g h : nat → R) :
  (∀ k, (k < n)%nat → h k = g k) → h <$> seq 0 n = g <$> seq 0 n.
Proof.
  intros H. apply list_fmap_ext. intros i k Hk.
  apply lookup_seq in Hk as [-> Hi]. by apply H.
Qed.

Lemma generate_local_xy_ext ap (n : nat) (g h : Rng) :
  (∀ k, (k < 2 * n)%nat → h k = g k) →
  (generate_local_xy ap n h).1 = (generate_local_xy ap n g).1.
Proof.
  intros H.
  assert (H1 : h <$> seq 0 n = g <$> seq 0 n) by (apply random_ext; intros; apply H; lia).
  assert (H2 : (λ k, h (n + k)%nat) <$> seq 0 n = (λ k, g (n + k)%nat) <$> seq 0 n).
  { apply (random_ext n (λ k, g (n + k)%nat) (λ k, h (n + k)%nat)).
    intros k Hk. apply H. lia. }
  destruct ap; simpl; by rewrite H1, H2.
Qed.

(** X7. A call on [n] photons uses exactly the next [2 n] draws of the
    random generator: the generator it leaves behind is the input shifted
    by [2 n], and a generator that agrees with the input on its first
    [2 n] draws produces the same batch. *)
Theorem flat_call_consumes_draws ap t g t' g' :
  base_contract (element ap) →
  call ap t g = Ok (t', g') →
  (∀ k, g' k = g (2 * nrows t + k)%nat) ∧
  (∀ h, (∀ k, (k < 2 * nrows t)%nat → h k = g k) →
     ∃ h', call ap t h = Ok (t', h')).
Proof.
  intros Hb Hcall.
  destruct (generate_local_xy ap (nrows t) g) as [[x y] g0] eqn:Eg.
  pose proof (generate_local_xy_rng _ _ _ _ _ _ Eg) as Hg0.
  rewrite (call_unfold ap t g x y g0 Hb Eg) in Hcall.
  split.
  - destruct (get_col "dir" _) as [[ds0|ds0]|]; [done| |done].
    cbn [mbind result_bind] in Hcall.
    destruct (get_col "probability" _) as [[ps0|ps0]|]; [|done|done].
    injection Hcall as _ <-. intros k. rewrite Hg0. f_equal. lia.
  - intros h Hh.
    destruct (generate_local_xy ap (nrows t) h) as [[x' y'] h0] eqn:Eh.
    pose proof (generate_local_xy_ext ap (nrows t) g h Hh) as Hext.
    rewrite Eg, Eh in Hext. injection Hext as -> ->.
    exists h0. rewrite (call_unfold ap t h x y h0 Hb Eh).
    destruct (get_col "dir" _) as [[ds0|ds0]|]; [done| |done].
    cbn [mbind result_bind] in *.
    destruct (get_col "probability" _) as [[ps0|ps0]|]; [|done|done].
    by injection Hcall as <- _.
Qed.

Lemma two_photons_call_returns :
  ∃ t' g', call (RectangleAperture unit_square) two_photons quarter_rng = Ok (t', g').
Proof.
  destruct (call_returns (RectangleAperture unit_square) two_photons quarter_rng
              _ _ unit_square_contract unit_square_names two_photons_ok)
    as (x & y & g' & _ & Hcall).
  by eexists _, _.
Qed.

Lemma flat_call_consumes_draws_witness :
  ∃ t' g',
    call (RectangleAperture unit_square) two_photons quarter_rng = Ok (t', g') ∧
    (∀ k, g' k = quarter_rng (2 * nrows two_photons + k)%nat) ∧
    (∀ h, (∀ k, (k < 2 * nrows two_photons)%nat → h k = quarter_rng k) →
       ∃ h', call (RectangleAperture unit_square) two_photons h = Ok (t', h')).
Proof.
  destruct two_photons_call_returns as (t' & g' & Hcall).
  exists t', g'. split; [exact Hcall|].
  exact (flat_call_consumes_draws (RectangleAperture unit_square) two_photons
           quarter_rng t' g' unit_square_contract Hcall).
Defined.

(** ** Well-formed tables *)

Lemma table_wf_set_col name col t :
  table_wf t → col_length col = nrows t → table_wf (set_col name col t).
Proof.
  intros Hwf Hlen c col'. simpl.
  destruct (decide (name = c)) as [->|Hne].
  - rewrite lookup_insert_eq. by intros [= <-].
  - rewrite lookup_insert_ne by done. apply Hwf.
Qed.

Lemma nrows_with_id el t : nrows (with_id el t) = nrows t.
Proof. unfold with_id. by destruct (id_col el). Qed.

Lemma nrows_with_local el x y t : nrows (with_local el x y t) = nrows t.
Proof. unfold with_local. by destruct (loc_coos_name el) as [[cx cy]|]. Qed.

Lemma table_wf_with_id el t : table_wf t → table_wf (with_id el t).
Proof.
  intros Hwf. unfold with_id. destruct (id_col el) as [c|]; [|done].
  apply table_wf_set_col; [done|]. apply length_replicate.
Qed.

Lemma table_wf_with_local el x y t :
  table_wf t → length x = nrows t → length y = nrows t →
  table_wf (with_local el x y t).
Proof.
  intros Hwf Hx Hy. unfold with_local.
  destruct (loc_coos_name el) as [[cx cy]|]; [|done].
  apply table_wf_set_col; [apply table_wf_set_col|]; done.
Qed.

(** X8. The call keeps batches well formed: if every column of the input
    has one entry per row, and the inherited [add_output_cols] only adds
    such columns, then every column of the returned batch has one entry
    per row. *)
Theorem flat_call_keeps_table_wf ap t g ds ps :
  base_contract (element ap) → names_ok (element ap) → batch_ok t ds ps →
  (∀ t0 names, table_wf t0 → table_wf (add_output_cols (element ap) t0 names)) →
  table_wf t →
  ∃ t' g', call ap t g = Ok (t', g') ∧ nrows t' = nrows t ∧ table_wf t'.
Proof.
  intros Hb Hn Hok Hadd Hwf.
  destruct (call_returns ap t g ds ps Hb Hn Hok) as (x & y & g' & Hgen & Hcall).
  destruct (generate_local_xy_length _ _ _ _ _ _ Hgen) as [Hx Hy].
  destruct Hok as (_ & _ & Hld & Hlp).
  assert (Hrows : nrows (add_output_cols (element ap) t (loc_coos_name (element ap)))
                  = nrows t) by apply (Hb t _).
  eexists _, g'. split; [exact Hcall|].
  split; [by rewrite nrows_set_col, nrows_positioned|].
  apply table_wf_set_col.
  - unfold positioned. apply table_wf_set_col.
    + apply table_wf_with_local; rewrite ?nrows_with_id, ?Hrows; [|done|done].
      apply table_wf_with_id. by apply Hadd.
    + cbn [col_length]. rewrite length_zip_with.
      rewrite nrows_with_local, nrows_with_id. lia.
  - cbn [col_length]. rewrite nrows_positioned by done.
    rewrite length_zip_with, length_fmap. lia.
Qed.

Lemma fill_missing_wf names t : table_wf t → table_wf (fill_missing names t).
Proof.
  intros Hwf. induction names as [|c names IH]; [done|]. simpl.
  destruct (cols (fill_missing names t) !! c); [done|].
  apply table_wf_set_col; [done|]. apply length_replicate.
Qed.

Lemma two_photons_wf : table_wf two_photons.
Proof.
  intros c col. unfold two_photons. simpl.
  destruct (decide (c = "dir")) as [->|Hd].
  { rewrite lookup_insert_eq. by intros [= <-]. }
  rewrite lookup_insert_ne by done.
  destruct (decide (c = "probability")) as [->|Hp].
  { rewrite lookup_insert_eq. by intros [= <-]. }
  rewrite lookup_insert_ne by done. by rewrite lookup_empty.
Qed.

Lemma flat_call_keeps_table_wf_witness :
  ∃ t' g',
    call (RectangleAperture unit_square) two_photons quarter_rng = Ok (t', g') ∧
    nrows t' = nrows two_photons ∧ table_wf t'.
Proof.
  apply (flat_call_keeps_table_wf (RectangleAperture unit_square) two_photons
           quarter_rng _ _ unit_square_contract unit_square_names two_photons_ok).
  - intros t0 names Hwf. by apply fill_missing_wf.
  - exact two_photons_wf.
Defined.

(** ** Circular apertures, continued *)

(** X9. The three outcomes of [CircleAperture.__init__] are exhaustive
    and ordered: [ValueError] exactly when the inner radius exceeds
    [|v_y|] (whatever the symmetry), [GeometryError] exactly when it does
    not but [|v_y|] and [|v_z|] are not close, and success — with the
    geometry stored unchanged — exactly when the inner radius is at most
    [|v_y|] and the two norms are close.  An inner radius equal to the
    outer radius is accepted. *)
Theorem circle_init_outcomes el r_inner phi :
  (CircleAperture_init el r_inner phi = Raise ValueError ↔
     r_inner > norm (v_y el)) ∧
  (CircleAperture_init el r_inner phi = Raise GeometryError ↔
     r_inner <= norm (v_y el) ∧ isclose (norm (v_y el)) (norm (v_z el)) = false) ∧
  (∀ ap, CircleAperture_init el r_inner phi = Ok ap ↔
     r_inner <= norm (v_y el) ∧ isclose (norm (v_y el)) (norm (v_z el)) = true ∧
     ap = CircleAperture el r_inner phi).
Proof.
  unfold CircleAperture_init.
  case_bool_decide as Hr.
  - split; [|split].
    + split; [done|done].
    + split; [done|]. intros [? _]. lra.
    + intros ap. split; [done|]. intros [? _]. lra.
  - assert (r_inner <= norm (v_y el)) by lra.
    destruct (isclose (norm (v_y el)) (norm (v_z el))) eqn:E; simpl.
    + split; [|split].
      * split; [done|]. intros ?. lra.
      * split; [done|]. by intros [_ ?].
      * intros ap. split; [by intros [= <-]|]. by intros (_ & _ & ->).
    + split; [|split].
      * split; [done|]. intros ?. lra.
      * split; done.
      * intros ap. split; [done|]. by intros (_ & ? & _).
Qed.

(** An oversized inner radius on an asymmetric geometry is a
    [ValueError]; an inner radius equal to the outer radius is accepted. *)
Lemma circle_init_outcomes_witness :
  CircleAperture_init wide_rectangle 2 full_circle = Raise ValueError ∧
  CircleAperture_init unit_square 1 full_circle
    = Ok (CircleAperture unit_square 1 full_circle).
Proof.
  split.
  - apply (proj1 (circle_init_outcomes wide_rectangle 2 full_circle)).
    rewrite norm_wide_rectangle_y. lra.
  - apply (proj2 (proj2 (circle_init_outcomes unit_square 1 full_circle))).
    rewrite norm_unit_square_y, norm_unit_square_z, isclose_refl.
    split; [lra|done].
Defined.

Lemma norm_nonneg a : 0 <= norm a.
Proof. apply sqrt_pos. Qed.

(** X10. A flat aperture with a non-degenerate footprint has a positive
    area: a rectangle with non-zero [v_y] and [v_z], and a ring or sector
    with [0 <= r_inner < |v_y|] and [phi[0] < phi[1]].  At
    [r_inner = |v_y|], the boundary the constructor accepts, the area is
    zero, and with the bounding angles swapped it is negative. *)
Theorem flat_area_sign :
  (∀ ap, nondegenerate ap → 0 < area ap) ∧
  (∀ el r_inner phi,
     r_inner = norm (v_y el) → area (CircleAperture el r_inner phi) = 0) ∧
  (∀ el r_inner phi,
     0 <= r_inner < norm (v_y el) → phi.2 < phi.1 →
     area (CircleAperture el r_inner phi) < 0).
Proof.
  assert (Hring : ∀ el r_inner, 0 <= r_inner < norm (v_y el) →
            0 < PI * (norm (v_y el) ^ 2 - r_inner ^ 2)).
  { intros el r_inner Hr. pose proof PI_RGT_0.
    apply Rmult_lt_0_compat; [done|]. simpl. nra. }
  assert (Hscale : ∀ a b A, (b - a) / (2 * PI) * A = (b - a) * (A / (2 * PI))).
  { intros. pose proof PI_neq0. field. done. }
  assert (Hpos : ∀ A, 0 < A → 0 < A / (2 * PI)).
  { intros A HA. pose proof PI_RGT_0. apply Rdiv_lt_0_compat; lra. }
  split; [|split].
  - intros [el|el r_inner phi]; simpl.
    + intros [Hy Hz]. apply Rmult_lt_0_compat; [|done].
      apply Rmult_lt_0_compat; [lra|done].
    + intros [Hr Hphi]. rewrite Hscale.
      apply Rmult_lt_0_compat; [lra|]. apply Hpos, Hring. done.
  - intros el r_inner phi ->. unfold area.
    replace (norm (v_y el) ^ 2 - norm (v_y el) ^ 2) with 0 by ring. ring.
  - intros el r_inner phi Hr Hphi. simpl. rewrite Hscale.
    pose proof (Hpos _ (Hring el r_inner Hr)). nra.
Qed.

Lemma flat_area_sign_witness :
  0 < area (RectangleAperture wide_rectangle) ∧
  0 < area (CircleAperture unit_square (/ 2) full_circle) ∧
  area (CircleAperture unit_square 1 full_circle) = 0 ∧
  area (CircleAperture unit_square (/ 2) (2 * PI, 0)) < 0.
Proof.
  pose proof PI_RGT_0.
  split; [|split; [|split]].
  - apply (proj1 flat_area_sign (RectangleAperture wide_rectangle)).
    cbn [nondegenerate].
    rewrite norm_wide_rectangle_y, norm_wide_rectangle_z. lra.
  - apply (proj1 flat_area_sign (CircleAperture unit_square (/ 2) full_circle)).
    cbn [nondegenerate]. rewrite norm_unit_square_y.
    unfold full_circle. cbn [fst snd]. lra.
  - apply (proj1 (proj2 flat_area_sign)). by rewrite norm_unit_square_y.
  - apply (proj2 (proj2 flat_area_sign)); cbn [fst snd].
    + rewrite norm_unit_square_y. lra.
    + lra.
Defined.

(** The squared normalized radius of a sampled point lies between the
    squared normalized inner radius and 1. *)
Lemma circle_sample_radius el r_inner phi n g x y g' j xj yj :
  unit_draws g → 0 < norm (v_y el) → 0 <= r_inner <= norm (v_y el) →
  generate_local_xy (CircleAperture el r_inner phi) n g = (x, y, g') →
  x !! j = Some xj → y !! j = Some yj →
  (r_inner / norm (v_y el)) ^ 2 <= xj ^ 2 + yj ^ 2 <= 1.
Proof.
  intros Hg Hnorm Hr Egen Hx Hy.
  set (rn := r_inner / norm (v_y el)).
  assert (Hrn : 0 <= rn <= 1).
  { unfold rn. split.
    - apply Rmult_le_pos; [lra|]. left. by apply Rinv_0_lt_compat.
    - apply (Rmult_le_reg_r (norm (v_y el))); [done|].
      unfold Rdiv. rewrite Rmult_assoc, Rinv_l by lra. lra. }
  assert (Hsq : 0 <= rn ^ 2 <= 1) by (simpl; nra).
  simpl in Egen. fold rn in Egen. injection Egen as <- <- _.
  assert (Hj : (j < n)%nat).
  { apply lookup_lt_Some in Hx.
    rewrite length_zip_with, !length_fmap, !length_seq in Hx. lia. }
  rewrite lookup_zip_with, !list_lookup_fmap, !lookup_seq_lt in Hx by done.
  rewrite lookup_zip_with, !list_lookup_fmap, !lookup_seq_lt in Hy by done.
  simpl in Hx, Hy. injection Hx as <-. injection Hy as <-.
  match goal with
  | |- context [sqrt ?V * cos ?P] => set (v := V); set (p := P)
  end.
  assert (Hv : rn ^ 2 <= v <= 1).
  { unfold v. replace (rn * (rn * 1)) with (rn ^ 2) by (simpl; ring).
    apply affine_unit_range; [done|apply Hg]. }
  assert (Hv0 : 0 <= v) by lra.
  pose proof (sin2_cos2 p) as Hsc. unfold Rsqr in Hsc.
  replace ((sqrt v * cos p) ^ 2 + (sqrt v * sin p) ^ 2)
    with (sqrt v * sqrt v * (sin p * sin p + cos p * cos p)) by ring.
  rewrite Hsc, sqrt_sqrt by done. lra.
Qed.

Lemma norm_from_center el x y :
  dot (v_y el) (v_z el) = 0 →
  dot (v_z el) (v_z el) = dot (v_y el) (v_y el) →
  dot (vadd (to_global el x y) (vneg (center el)))
      (vadd (to_global el x y) (vneg (center el)))
    = (x ^ 2 + y ^ 2) * dot (v_y el) (v_y el).
Proof.
  intros Horth Heq.
  replace (dot (vadd (to_global el x y) (vneg (center el)))
               (vadd (to_global el x y) (vneg (center el))))
    with (x ^ 2 * dot (v_y el) (v_y el) + 2 * x * y * dot (v_y el) (v_z el)
          + y ^ 2 * dot (v_z el) (v_z el))
    by (unfold dot, to_global, vadd, vscale, vneg; simpl; ring).
  rewrite Horth, Heq. ring.
Qed.

(** X11. For a circular aperture whose [v_y] and [v_z] are orthogonal and
    of equal length, every position the call writes lies in the ring of
    the aperture: its distance from [center] is at least [r_inner] and at
    most the outer radius [|v_y|]. *)
Theorem circle_call_positions_in_ring el r_inner phi t g ds ps :
  base_contract el → names_ok el → batch_ok t ds ps →
  unit_draws g → 0 < norm (v_y el) → 0 <= r_inner <= norm (v_y el) →
  dot (v_y el) (v_z el) = 0 →
  dot (v_z el) (v_z el) = dot (v_y el) (v_y el) →
  ∃ t' g' pos,
    call (CircleAperture el r_inner phi) t g = Ok (t', g') ∧
    cols t' !! "pos" = Some (ColVec pos) ∧
    length pos = nrows t ∧
    ∀ p, p ∈ pos →
      r_inner <= norm (vadd p (vneg (center el))) <= norm (v_y el).
Proof.
  intros Hb Hn Hok Hg Hnorm Hr Horth Heq.
  destruct (call_returns (CircleAperture el r_inner phi) t g ds ps Hb Hn Hok)
    as (x & y & g' & Hgen & Hcall).
  destruct (generate_local_xy_length _ _ _ _ _ _ Hgen) as [Hx Hy].
  eexists _, g', _. split; [exact Hcall|]. split; [|split].
  - rewrite lookup_set_col_ne by done. apply lookup_positioned_pos.
  - rewrite length_zip_with. lia.
  - intros p Hp. apply list_elem_of_lookup in Hp as [j Hj].
    rewrite lookup_zip_with in Hj.
    destruct (x !! j) as [xj|] eqn:Hxj; [|done]. simpl in Hj.
    destruct (y !! j) as [yj|] eqn:Hyj; [|done]. injection Hj as <-.
    cbn [element].
    pose proof (circle_sample_radius el r_inner phi (nrows t) g x y g' j xj yj
                  Hg Hnorm Hr Hgen Hxj Hyj) as Hrad.
    assert (Hnp : norm (vadd (to_global el xj yj) (vneg (center el)))
                  = sqrt ((xj ^ 2 + yj ^ 2) * dot (v_y el) (v_y el))).
    { unfold norm. by rewrite norm_from_center. }
    rewrite Hnp.
    pose proof (norm_sqr (v_y el)) as Hsq.
    assert (Hri : r_inner ^ 2 = (r_inner / norm (v_y el)) ^ 2 * dot (v_y el) (v_y el)).
    { rewrite <- Hsq. field. lra. }
    assert (Hd : 0 <= dot (v_y el) (v_y el)) by (rewrite <- Hsq; simpl; nra).
    split.
    + replace r_inner with (sqrt (r_inner ^ 2)) at 1.
      * apply sqrt_le_1_alt. rewrite Hri. apply Rmult_le_compat_r; lra.
      * simpl. rewrite Rmult_1_r. apply sqrt_square. lra.
    + unfold norm. apply sqrt_le_1_alt.
      apply Rle_trans with (1 * dot (v_y el) (v_y el)); [|lra].
      apply Rmult_le_compat_r; lra.
Qed.

Lemma circle_call_positions_in_ring_witness :
  ∃ t' g' pos,
    call (CircleAperture unit_square (/ 2) full_circle) two_photons quarter_rng
      = Ok (t', g') ∧
    cols t' !! "pos" = Some (ColVec pos) ∧
    length pos = nrows two_photons ∧
    ∀ p, p ∈ pos →
      / 2 <= norm (vadd p (vneg (center unit_square))) <= norm (v_y unit_square).
Proof.
  apply (circle_call_positions_in_ring unit_square (/ 2) full_circle two_photons
           quarter_rng _ _ unit_square_contract unit_square_names two_photons_ok
           quarter_rng_unit).
  - rewrite norm_unit_square_y. lra.
  - rewrite norm_unit_square_y. lra.
  - unfold dot. simpl. ring.
  - unfold dot. simpl. ring.
Defined.

(** ** MultiAperture, continued *)

Lemma rsum_take_S l i a :
  l !! i = Some a → rsum (take (S i) l) = rsum (take i l) + a.
Proof.
  revert i. induction l as [|b l IH]; intros i Hi; [done|].
  destruct i as [|i]; simpl in *.
  - injection Hi as ->. ring.
  - rewrite (IH i Hi). ring.
Qed.

Lemma cum_area_S ma i e :
  elements ma !! i = Some e →
  cum_area ma (S i) = cum_area ma i + elem_area e.
Proof.
  intros He. unfold cum_area, areas. apply rsum_take_S.
  by rewrite list_lookup_fmap, He.
Qed.

Lemma digitize_area_bins ma us :
  nondecreasing (area_bins ma) = true →
  digitize us (area_bins ma) = Ok (searchsorted_right (area_bins ma) <$> us).
Proof. intros H. unfold digitize. by rewrite H. Qed.

(** X12. Each sub-aperture receives photons in proportion to its area:
    with positive areas, the draws [u] in [[0, 1)] that line 193 maps to
    sub-aperture [i] are exactly those of a half-open interval of length
    [A_i / sum(A)]; the first interval starts at 0 and each interval
    starts where the previous one ends. *)
Theorem multi_aperture_area_share ma i e u :
  elements ma ≠ [] → Forall (λ e, 0 < elem_area e) (elements ma) →
  elements ma !! i = Some e → 0 <= u < 1 →
  (digitize [u] (area_bins ma) = Ok [i] ↔
     cum_area ma i / multi_area ma <= u
       < cum_area ma i / multi_area ma + elem_area e / multi_area ma) ∧
  cum_area ma 0 / multi_area ma = 0 ∧
  cum_area ma (S i) / multi_area ma
    = cum_area ma i / multi_area ma + elem_area e / multi_area ma ∧
  cum_area ma (length (elements ma)) / multi_area ma = 1.
Proof.
  intros Hne Hpos He Hu.
  pose proof (multi_area_pos ma Hne Hpos) as HT.
  assert (Hi : (i < length (elements ma))%nat) by (by eapply lookup_lt_Some).
  assert (Hstep : cum_area ma (S i) / multi_area ma
                  = cum_area ma i / multi_area ma + elem_area e / multi_area ma).
  { rewrite (cum_area_S ma i e He). field. lra. }
  split; [|split; [|split]].
  - rewrite digitize_area_bins by (by apply area_bins_nondecreasing).
    rewrite <- Hstep.
    rewrite <- (searchsorted_area_bins ma u i Hne Hpos) by (done || lra).
    simpl. split; [by intros [= ->]|by intros ->].
  - unfold cum_area. rewrite take_0. simpl. unfold Rdiv. ring.
  - exact Hstep.
  - rewrite cum_area_total. unfold Rdiv. apply Rinv_r. lra.
Qed.

Lemma two_apertures_positive :
  Forall (λ e, 0 < elem_area e) (elements two_apertures).
Proof. repeat constructor; simpl; lra. Qed.

Lemma multi_aperture_area_share_witness :
  (digitize [/ 2] (area_bins two_apertures) = Ok [1%nat] ↔
     cum_area two_apertures 1 / multi_area two_apertures <= / 2
       < cum_area two_apertures 1 / multi_area two_apertures
         + elem_area (mkElem 3 pass_on) / multi_area two_apertures) ∧
  cum_area two_apertures 0 / multi_area two_apertures = 0 ∧
  cum_area two_apertures 2 / multi_area two_apertures
    = cum_area two_apertures 1 / multi_area two_apertures
      + elem_area (mkElem 3 pass_on) / multi_area two_apertures ∧
  cum_area two_apertures (length (elements two_apertures))
    / multi_area two_apertures = 1.
Proof.
  apply (multi_aperture_area_share two_apertures 1 (mkElem 3 pass_on) (/ 2)).
  - done.
  - exact two_apertures_positive.
  - reflexivity.
  - lra.
Defined.

(** *** Areas given in another unit *)

Lemma cumsum_from_scale k acc l :
  cumsum_from (k * acc) ((λ a, k * a) <$> l) = (λ c, k * c) <$> cumsum_from acc l.
Proof.
  revert acc. induction l as [|a l IH]; intros acc; [done|].
  simpl. rewrite <- IH. by rewrite Rmult_plus_distr_l.
Qed.

Lemma rsum_scale k l : rsum ((λ a, k * a) <$> l) = k * rsum l.
Proof.
  induction l as [|a l IH]; [simpl; ring|].
  rewrite fmap_cons. unfold rsum in *. cbn [foldr]. rewrite IH. ring.
Qed.

Lemma areas_scale k ma :
  elem_area <$> elements (scale_areas k ma)
    = (λ a, k * a) <$> (elem_area <$> elements ma).
Proof.
  unfold scale_areas. simpl. rewrite <- !list_fmap_compose. done.
Qed.

Lemma area_bins_scale k ma :
  k ≠ 0 → multi_area ma ≠ 0 → area_bins (scale_areas k ma) = area_bins ma.
Proof.
  intros Hk HT. unfold area_bins, multi_area, cumsum.
  rewrite areas_scale, rsum_scale.
  replace 0 with (k * 0) at 1 by ring.
  rewrite cumsum_from_scale, <- list_fmap_compose.
  apply list_fmap_ext. intros i c _. simpl.
  unfold multi_area in HT. field. done.
Qed.

Lemma dispatch_scale k ma elems i aperid photons g :
  dispatch (scale_areas k ma) i
    ((λ e, mkElem (k * elem_area e) (elem_call e)) <$> elems) aperid photons g
  = dispatch ma i elems aperid photons g.
Proof.
  revert i g. induction elems as [|e elems IH]; intros i g; [done|].
  simpl.
  destruct (run_steps (preprocess_steps ma) _ g) as [[t1 g1]|]; [|done].
  cbn [mbind result_bind].
  destruct (elem_call e t1 g1) as [[t2 g2]|]; [|done].
  cbn [mbind result_bind].
  destruct (run_steps (postprocess_steps ma) t2 g2) as [[t3 g3]|]; [|done].
  cbn [mbind result_bind]. by rewrite IH.
Qed.

(** X13. Only the ratios of the areas matter: multiplying every
    sub-aperture area by the same non-zero factor (giving the areas in
    another unit) changes nothing in what [MultiAperture.__call__]
    returns. *)
Theorem multi_call_scale_invariant vstack k ma photons g :
  k ≠ 0 → multi_area ma ≠ 0 →
  multi_call vstack (scale_areas k ma) photons g = multi_call vstack ma photons g.
Proof.
  intros Hk HT. unfold multi_call.
  rewrite (area_bins_scale k ma Hk HT).
  destruct (random (nrows photons) g) as [us g1].
  destruct (digitize us (area_bins ma)) as [aperid|]; [|done].
  cbn [mbind result_bind].
  change (multi_id_col (scale_areas k ma)) with (multi_id_col ma).
  change (elements (scale_areas k ma))
    with ((λ e, mkElem (k * elem_area e) (elem_call e)) <$> elements ma).
  by rewrite dispatch_scale.
Qed.

Lemma multi_call_scale_invariant_witness :
  multi_call vstack_uniform (scale_areas 100 two_apertures) two_photons split_rng
  = multi_call vstack_uniform two_apertures two_photons split_rng.
Proof.
  apply (multi_call_scale_invariant vstack_uniform 100 two_apertures
           two_photons split_rng).
  - lra.
  - unfold multi_area. simpl. lra.
Defined.

(** *** Sub-apertures of zero area *)

Lemma rsum_take_mono_nonneg l i j :
  Forall (λ a, 0 <= a) l → (i <= j)%nat → rsum (take i l) <= rsum (take j l).
Proof.
  intros Hpos. revert i j. induction Hpos as [|a l Ha Hl IH]; intros i j Hij.
  - rewrite !take_nil. lra.
  - destruct i as [|i]; destruct j as [|j]; simpl; try lia; try lra.
    + assert (0 <= rsum (take j l)).
      { specialize (IH 0%nat j). rewrite take_0 in IH. simpl in IH. apply IH. lia. }
      lra.
    + specialize (IH i j). assert (i <= j)%nat as H by lia. apply IH in H. lra.
Qed.

Lemma area_bins_nondecreasing_nonneg ma :
  Forall (λ e, 0 <= elem_area e) (elements ma) → 0 < multi_area ma →
  nondecreasing (area_bins ma) = true.
Proof.
  intros Hpos HT. apply nondecreasing_true. intros i a b Ha Hb.
  assert (Hi : (S i < length (elements ma))%nat).
  { rewrite <- length_area_bins. by eapply lookup_lt_Some. }
  rewrite lookup_area_bins in Ha, Hb by lia.
  injection Ha as <-. injection Hb as <-.
  apply Rmult_le_compat_r; [left; by apply Rinv_0_lt_compat|].
  apply rsum_take_mono_nonneg; [|lia].
  unfold areas. by apply Forall_fmap.
Qed.

(** X14. A sub-aperture of zero area never receives a photon: with
    non-negative areas of positive total and draws that are not negative,
    line 193 succeeds and the index of a zero-area sub-aperture does not
    occur among the assigned ids. *)
Theorem zero_area_aperture_gets_no_photon ma i e us :
  Forall (λ e, 0 <= elem_area e) (elements ma) → 0 < multi_area ma →
  elements ma !! i = Some e → elem_area e = 0 →
  Forall (λ u, 0 <= u) us →
  ∃ aperid,
    digitize us (area_bins ma) = Ok aperid ∧
    length aperid = length us ∧
    i ∉ aperid.
Proof.
  intros Hpos HT He Hzero Hus.
  exists (searchsorted_right (area_bins ma) <$> us).
  split; [by apply digitize_area_bins, area_bins_nondecreasing_nonneg|].
  split; [by rewrite length_fmap|].
  intros Hin. apply list_elem_of_fmap in Hin as (u & Hi & Hu).
  rewrite Forall_forall in Hus. specialize (Hus u Hu).
  assert (Hlt : (i < length (elements ma))%nat) by (by eapply lookup_lt_Some).
  pose proof (lookup_area_bins ma i Hlt) as Hbin.
  rewrite (cum_area_S ma i e He), Hzero, Rplus_0_r in Hbin.
  assert (Habove : u < cum_area ma i / multi_area ma).
  { apply (searchsorted_right_above (area_bins ma)). by rewrite <- Hi. }
  destruct i as [|i'].
  - unfold cum_area in Habove. rewrite take_0 in Habove. simpl in Habove.
    unfold Rdiv in Habove. rewrite Rmult_0_l in Habove. lra.
  - assert (cum_area ma (S i') / multi_area ma <= u).
    { apply (searchsorted_right_below (area_bins ma) u i'); [lia|].
      apply lookup_area_bins. lia. }
    lra.
Qed.

Lemma zero_area_aperture_gets_no_photon_witness :
  ∃ aperid,
    digitize [/ 8; / 2] (area_bins with_closed_aperture) = Ok aperid ∧
    length aperid = length [/ 8; / 2] ∧
    1%nat ∉ aperid.
Proof.
  apply (zero_area_aperture_gets_no_photon with_closed_aperture 1
           (mkElem 0 pass_on) [/ 8; / 2]).
  - repeat constructor; simpl; lra.
  - unfold multi_area. simpl. lra.
  - reflexivity.
  - reflexivity.
  - repeat constructor; lra.
Defined.

(** *** The group handed to a sub-aperture *)

Lemma mask_select_own_id (aperid : list nat) (i : nat) :
  mask_select (id_mask aperid i) (INR <$> aperid)
    = replicate (count_true (id_mask aperid i)) (INR i).
Proof.
  unfold count_true. induction aperid as [|a aperid IH]; [done|].
  unfold id_mask in *. rewrite !fmap_cons. cbn [mask_select].
  case_bool_decide as Ha.
  - subst a. rewrite filter_cons_True by done. simpl. by rewrite IH.
  - rewrite filter_cons_False by done. exact IH.
Qed.

(** X15. Every photon is tagged with the sub-aperture it is sent to: in
    the group of rows that [MultiAperture.__call__] selects for
    sub-aperture [i], the id column holds [i] in every row. *)
Theorem multi_group_carries_own_id ma aperid photons i c :
  multi_id_col ma = Some c →
  cols (select (id_mask aperid i) (tagged ma aperid photons)) !! c
    = Some (ColScalar
              (replicate (nrows (select (id_mask aperid i) (tagged ma aperid photons)))
                 (INR i))).
Proof.
  intros Hc. unfold select. cbn [cols nrows]. rewrite lookup_fmap.
  unfold tagged. rewrite Hc, lookup_set_col_eq. simpl.
  by rewrite mask_select_own_id.
Qed.

Lemma multi_group_carries_own_id_witness :
  cols (select (id_mask [0; 1]%nat 0)
          (tagged two_apertures [0; 1]%nat two_photons)) !! "aperture"
    = Some (ColScalar
              (replicate
                 (nrows (select (id_mask [0; 1]%nat 0)
                           (tagged two_apertures [0; 1]%nat two_photons)))
                 (INR 0))).
Proof.
  apply (multi_group_carries_own_id two_apertures [0; 1]%nat two_photons 0
           "aperture").
  reflexivity.
Defined.

(** *** A composite of one sub-aperture *)

Lemma mask_select_all {A} (n : nat) (l : list A) :
  (length l <= n)%nat → mask_select (replicate n true) l = l.
Proof.
  revert n. induction l as [|a l IH]; intros n Hn.
  - by destruct n.
  - destruct n as [|n]; simpl in *; [lia|]. rewrite IH by lia. done.
Qed.

Lemma count_true_all n : count_true (replicate n true) = n.
Proof.
  unfold count_true. induction n as [|n IH]; [done|].
  cbn [replicate]. rewrite filter_cons_True by done. simpl. by rewrite IH.
Qed.

Lemma select_all t : table_wf t → select (replicate (nrows t) true) t = t.
Proof.
  intros Hwf. destruct t as [n cs]. unfold select. cbn [nrows cols] in *.
  rewrite count_true_all. f_equal.
  apply map_eq. intros c. rewrite lookup_fmap.
  destruct (cs !! c) as [col|] eqn:E; [|done]. simpl. f_equal.
  specialize (Hwf c col E). cbn [nrows] in Hwf.
  destruct col as [l|l]; simpl in *; by rewrite mask_select_all by lia.
Qed.

Lemma tagged_wf ma aperid t :
  table_wf t → length aperid = nrows t → table_wf (tagged ma aperid t).
Proof.
  intros Hwf Hlen. unfold tagged. destruct (multi_id_col ma) as [c|]; [|done].
  apply table_wf_set_col; [done|]. simpl. by rewrite length_fmap.
Qed.

Lemma nrows_tagged ma aperid t : nrows (tagged ma aperid t) = nrows t.
Proof. unfold tagged. by destruct (multi_id_col ma). Qed.

(** The call of a composite with one sub-aperture, unfolded. *)
Lemma multi_call_single_unfold vstack ma e photons g :
  elements ma = [e] → 0 < elem_area e → unit_draws g → table_wf photons →
  multi_call vstack ma photons g =
    ('(t1, g1) ← run_steps (preprocess_steps ma)
                   (tagged ma (replicate (nrows photons) 0%nat) photons)
                   (λ k, g (nrows photons + k)%nat);
     '(t2, g2) ← elem_call e t1 g1;
     '(t3, g3) ← run_steps (postprocess_steps ma) t2 g2;
     res ← vstack [t3];
     Ok (res, g3)).
Proof.
  intros He Hpos Hg Hwf.
  assert (Hne : elements ma ≠ []) by (by rewrite He).
  assert (Hall : Forall (λ e, 0 < elem_area e) (elements ma)).
  { rewrite He. by repeat constructor. }
  unfold multi_call, random.
  rewrite digitize_area_bins by (by apply area_bins_nondecreasing).
  cbn [mbind result_bind].
  assert (Hids : searchsorted_right (area_bins ma) <$> (g <$> seq 0 (nrows photons))
                 = replicate (nrows photons) 0%nat).
  { apply list_eq. intros j.
    destruct (decide (j < nrows photons)%nat) as [Hj|Hj].
    - rewrite !list_lookup_fmap, lookup_seq_lt by done. simpl.
      rewrite lookup_replicate_2 by done. f_equal.
      pose proof (searchsorted_area_bins_lt ma (g (0 + j)%nat) Hne Hall
                    (proj2 (Hg _))) as Hlt.
      rewrite He in Hlt. simpl in Hlt. lia.
    - rewrite lookup_ge_None_2 by (rewrite !length_fmap, length_seq; lia).
      rewrite lookup_ge_None_2 by (rewrite length_replicate; lia). done. }
  rewrite Hids.
  fold (tagged ma (replicate (nrows photons) 0%nat) photons).
  rewrite He. cbn [dispatch].
  assert (Hmask : id_mask (replicate (nrows photons) 0%nat) 0
                  = replicate (nrows (tagged ma (replicate (nrows photons) 0%nat) photons)) true).
  { unfold id_mask. rewrite fmap_replicate, nrows_tagged. done. }
  rewrite Hmask, select_all
    by (apply tagged_wf; [done|by rewrite length_replicate]).
  destruct (run_steps (preprocess_steps ma) _ _) as [[t1 g1]|]; [|done].
  cbn [mbind result_bind].
  destruct (elem_call e t1 g1) as [[t2 g2]|]; [|done].
  cbn [mbind result_bind].
  destruct (run_steps (postprocess_steps ma) t2 g2) as [[t3 g3]|]; [|done].
  done.
Qed.

(** X16. A [MultiAperture] with a single sub-aperture of positive area
    hands that sub-aperture the whole batch, every row tagged with id 0:
    the call is the pre-processing steps, the sub-aperture's call and the
    post-processing steps on the tagged batch, followed by [vstack] of the
    one result; the first [n] draws of the generator are used up by the
    assignment. *)
Theorem multi_call_single vstack ma e photons g :
  elements ma = [e] → 0 < elem_area e → unit_draws g → table_wf photons →
  multi_call vstack ma photons g =
    ('(t1, g1) ← run_steps (preprocess_steps ma)
                   (tagged ma (replicate (nrows photons) 0%nat) photons)
                   (λ k, g (nrows photons + k)%nat);
     '(t2, g2) ← elem_call e t1 g1;
     '(t3, g3) ← run_steps (postprocess_steps ma) t2 g2;
     res ← vstack [t3];
     Ok (res, g3)).
Proof. apply multi_call_single_unfold. Qed.


Lemma multi_call_single_witness :
  multi_call vstack_uniform one_aperture two_photons split_rng =
    ('(t1, g1) ← run_steps (preprocess_steps one_aperture)
                   (tagged one_aperture (replicate (nrows two_photons) 0%nat)
                      two_photons)
                   (λ k, split_rng (nrows two_photons + k)%nat);
     '(t2, g2) ← elem_call (mkElem 2 pass_on) t1 g1;
     '(t3, g3) ← run_steps (postprocess_steps one_aperture) t2 g2;
     res ← vstack_uniform [t3];
     Ok (res, g3)).
Proof.
  apply (multi_call_single vstack_uniform one_aperture (mkElem 2 pass_on)
           two_photons split_rng).
  - reflexivity.
  - simpl. lra.
  - exact split_rng_unit.
  - exact two_photons_wf.
Defined.

(** *** Random draws used by a composite of flat apertures *)

Lemma call_rng_shift ap t g t' g' :
  base_contract (element ap) → call ap t g = Ok (t', g') →
  g' = λ k, g (nrows t + (nrows t + k))%nat.
Proof.
  intros Hb Hcall.
  destruct (generate_local_xy ap (nrows t) g) as [[x y] g0] eqn:Eg.
  rewrite (call_unfold ap t g x y g0 Hb Eg) in Hcall.
  destruct (get_col "dir" _) as [[ds0|ds0]|]; [done| |done].
  cbn [mbind result_bind] in Hcall.
  destruct (get_col "probability" _) as [[ps0|ps0]|]; [|done|done].
  injection Hcall as _ <-. by eapply generate_local_xy_rng.
Qed.

Lemma count_true_cons b mask :
  count_true (b :: mask) = ((if b then 1 else 0) + count_true mask)%nat.
Proof.
  unfold count_true. destruct b.
  - by rewrite filter_cons_True.
  - by rewrite filter_cons_False.
Qed.

Lemma group_rows_nil i k : group_rows [] i k = 0%nat.
Proof. revert i. induction k as [|k IH]; intros i; [done|]. simpl. apply IH. Qed.

Lemma group_rows_cons a aperid i k :
  group_rows (a :: aperid) i k
    = ((if bool_decide (i <= a < i + k)%nat then 1 else 0) + group_rows aperid i k)%nat.
Proof.
  revert i. induction k as [|k IH]; intros i.
  - simpl. rewrite bool_decide_eq_false_2 by lia. done.
  - cbn [group_rows]. rewrite IH. unfold id_mask. rewrite fmap_cons, count_true_cons.
    repeat case_bool_decide; lia.
Qed.

(** The sizes of the groups add up to the number of photons. *)
Lemma group_rows_total aperid k :
  Forall (λ a, a < k)%nat aperid → group_rows aperid 0 k = length aperid.
Proof.
  induction 1 as [|a aperid Ha Hrest IH]; [apply group_rows_nil|].
  rewrite group_rows_cons, IH, bool_decide_eq_true_2 by lia. done.
Qed.

Lemma dispatch_flat_draws ma aps aperid photons :
  preprocess_steps ma = [] → postprocess_steps ma = [] →
  Forall (λ ap, base_contract (element ap)) aps →
  ∀ i g outs g',
    dispatch ma i (as_element <$> aps) aperid photons g = Ok (outs, g') →
    ∀ k, g' k = g (2 * group_rows aperid i (length aps) + k)%nat.
Proof.
  intros Hpre Hpost Hall. induction Hall as [|ap aps Hb Hrest IH];
    intros i g outs g' Hd k.
  - simpl in Hd. by injection Hd as _ <-.
  - rewrite fmap_cons in Hd. cbn [dispatch] in Hd.
    rewrite Hpre, Hpost in Hd. cbn [run_steps mbind result_bind] in Hd.
    cbn [as_element elem_call] in Hd.
    destruct (call ap (select (id_mask aperid i) photons) g)
      as [[t2 g2]|] eqn:Ec; [|done].
    cbn [mbind result_bind] in Hd.
    destruct (dispatch ma (S i) (as_element <$> aps) aperid photons g2)
      as [[outs' g4]|] eqn:Ed; [|done].
    cbn [mbind result_bind] in Hd. injection Hd as _ <-.
    rewrite (IH _ _ _ _ Ed k).
    rewrite (call_rng_shift ap _ g t2 g2 Hb Ec).
    cbn [select nrows length group_rows]. f_equal. lia.
Qed.

(** X17. A [MultiAperture] whose sub-apertures are flat apertures of
    positive area, without processing steps, uses exactly [3 n] draws of
    the random generator on a batch of [n] photons: [n] for the
    assignment and two per photon in the sub-apertures together. *)
Theorem multi_call_flat_draws vstack ma aps photons g res g' :
  elements ma = as_element <$> aps →
  preprocess_steps ma = [] → postprocess_steps ma = [] →
  aps ≠ [] →
  Forall (λ ap, base_contract (element ap)) aps →
  Forall (λ ap, 0 < area ap) aps →
  unit_draws g →
  multi_call vstack ma photons g = Ok (res, g') →
  ∀ k, g' k = g (3 * nrows photons + k)%nat.
Proof.
  intros He Hpre Hpost Hnil Hb Hpos Hg Hcall k.
  assert (Hne : elements ma ≠ []).
  { rewrite He. by destruct aps. }
  assert (Hall : Forall (λ e, 0 < elem_area e) (elements ma)).
  { rewrite He. by apply Forall_fmap. }
  unfold multi_call, random in Hcall.
  rewrite digitize_area_bins in Hcall by (by apply area_bins_nondecreasing).
  cbn [mbind result_bind] in Hcall.
  set (aperid := searchsorted_right (area_bins ma) <$> (g <$> seq 0 (nrows photons)))
    in *.
  fold (tagged ma aperid photons) in Hcall.
  rewrite He in Hcall.
  destruct (dispatch ma 0 (as_element <$> aps) aperid (tagged ma aperid photons) _)
    as [[outs g2]|] eqn:Ed; [|done].
  cbn [mbind result_bind] in Hcall.
  destruct (vstack outs) as [r|]; [|done].
  cbn [mbind result_bind] in Hcall. injection Hcall as _ <-.
  rewrite (dispatch_flat_draws ma aps aperid _ Hpre Hpost Hb _ _ _ _ Ed k).
  assert (Hlt : Forall (λ a, a < length aps)%nat aperid).
  { unfold aperid. apply Forall_fmap, Forall_forall. intros u Hu.
    apply list_elem_of_fmap in Hu as (j & -> & _).
    pose proof (searchsorted_area_bins_lt ma (g j) Hne Hall (proj2 (Hg j))) as H.
    by rewrite He, length_fmap in H. }
  rewrite (group_rows_total aperid _ Hlt).
  unfold aperid. rewrite !length_fmap, length_seq. f_equal. lia.
Qed.

Lemma unit_square_area : area (RectangleAperture unit_square) = 4.
Proof.
  unfold area. rewrite norm_unit_square_y, norm_unit_square_z. ring.
Qed.

Lemma one_square_returns :
  ∃ res g',
    multi_call vstack_uniform one_square two_photons split_rng = Ok (res, g').
Proof.
  rewrite (multi_call_single_unfold vstack_uniform one_square
             (as_element (RectangleAperture unit_square)) two_photons split_rng
             eq_refl).
  - cbn [preprocess_steps postprocess_steps one_square run_steps mbind result_bind
           as_element elem_call].
    destruct (call_returns (RectangleAperture unit_square)
                (tagged one_square (replicate (nrows two_photons) 0%nat) two_photons)
                (λ k, split_rng (nrows two_photons + k)%nat)
                [mkVec4 (-1) 0 0 0; mkVec4 1 0 0 0] [1; / 2]
                unit_square_contract unit_square_names)
      as (x & y & g' & _ & Hcall); [by repeat split|].
    rewrite Hcall. cbn [mbind result_bind vstack_uniform]. by eexists _, _.
  - cbn [as_element elem_area]. rewrite unit_square_area. lra.
  - exact split_rng_unit.
  - exact two_photons_wf.
Qed.

Lemma multi_call_flat_draws_witness :
  ∃ res g',
    multi_call vstack_uniform one_square two_photons split_rng = Ok (res, g') ∧
    ∀ k, g' k = split_rng (3 * nrows two_photons + k)%nat.
Proof.
  destruct one_square_returns as (res & g' & Hcall).
  exists res, g'. split; [exact Hcall|].
  apply (multi_call_flat_draws vstack_uniform one_square
           [RectangleAperture unit_square] two_photons split_rng res g').
  - reflexivity.
  - reflexivity.
  - reflexivity.
  - done.
  - constructor; [exact unit_square_contract|constructor].
  - constructor; [rewrite unit_square_area; lra|constructor].
  - exact split_rng_unit.
  - exact Hcall.
Defined.

(** *** Areas of mixed sign *)

Lemma nondecreasing_lookup l i a b :
  nondecreasing l = true → l !! i = Some a → l !! S i = Some b → a <= b.
Proof.
  revert i. induction l as [|x l IH]; intros i H Ha Hb; [done|].
  destruct l as [|y l]; [done|].
  change (bool_decide (x <= y) && nondecreasing (y :: l) = true) in H.
  apply andb_true_iff in H as [Hxy Hrest]. apply bool_decide_eq_true in Hxy.
  destruct i as [|i]; simpl in Ha, Hb.
  - injection Ha as <-. injection Hb as <-. done.
  - by apply (IH i).
Qed.

Lemma nonincreasing_lookup l i a b :
  nonincreasing l = true → l !! i = Some a → l !! S i = Some b → b <= a.
Proof.
  revert i. induction l as [|x l IH]; intros i H Ha Hb; [done|].
  destruct l as [|y l]; [done|].
  change (bool_decide (y <= x) && nonincreasing (y :: l) = true) in H.
  apply andb_true_iff in H as [Hxy Hrest]. apply bool_decide_eq_true in Hxy.
  destruct i as [|i]; simpl in Ha, Hb.
  - injection Ha as <-. injection Hb as <-. done.
  - by apply (IH i).
Qed.

Lemma area_bins_step ma i e :
  0 < multi_area ma → elements ma !! S i = Some e →
  ∃ a b, area_bins ma !! i = Some a ∧ area_bins ma !! S i = Some b ∧
         b - a = elem_area e / multi_area ma.
Proof.
  intros HT He.
  assert (Hi : (S i < length (elements ma))%nat) by (by eapply lookup_lt_Some).
  exists (cum_area ma (S i) / multi_area ma), (cum_area ma (S (S i)) / multi_area ma).
  split; [apply lookup_area_bins; lia|]. split; [by apply lookup_area_bins|].
  rewrite (cum_area_S ma (S i) e He). field. lra.
Qed.

(** X18. Areas of mixed sign are refused: when the total area is
    positive and, after the first sub-aperture, one sub-aperture has a
    positive and another a negative area (as a [CircleAperture] with its
    bounding angles swapped has), the bins of line 193 are not monotonic
    and [MultiAperture.__call__] raises [ValueError] before any
    sub-aperture is called. *)
Theorem multi_call_mixed_sign_areas vstack ma photons g i j ei ej :
  0 < multi_area ma →
  elements ma !! S i = Some ei → 0 < elem_area ei →
  elements ma !! S j = Some ej → elem_area ej < 0 →
  multi_call vstack ma photons g = Raise ValueError.
Proof.
  intros HT Hi Hpos Hj Hneg.
  destruct (area_bins_step ma i ei HT Hi) as (a & b & Ha & Hb & Hab).
  destruct (area_bins_step ma j ej HT Hj) as (c & d & Hc & Hd & Hcd).
  assert (0 < / multi_area ma) by (by apply Rinv_0_lt_compat).
  assert (Hup : a < b).
  { assert (0 < elem_area ei / multi_area ma) by (by apply Rmult_lt_0_compat). lra. }
  assert (Hdown : d < c).
  { assert (0 < - elem_area ej / multi_area ma)
      by (apply Rmult_lt_0_compat; [lra|done]).
    assert (- elem_area ej / multi_area ma = - (elem_area ej / multi_area ma))
      by (unfold Rdiv; ring).
    lra. }
  unfold multi_call, random, digitize.
  destruct (nondecreasing (area_bins ma)) eqn:E1.
  { pose proof (nondecreasing_lookup _ _ _ _ E1 Hc Hd). lra. }
  destruct (nonincreasing (area_bins ma)) eqn:E2.
  { pose proof (nonincreasing_lookup _ _ _ _ E2 Ha Hb). lra. }
  done.
Qed.

Lemma multi_call_mixed_sign_areas_witness :
  multi_call vstack_uniform with_negative_area two_photons split_rng
    = Raise ValueError.
Proof.
  apply (multi_call_mixed_sign_areas vstack_uniform with_negative_area two_photons
           split_rng 0 1 (mkElem 1 pass_on) (mkElem (-2) pass_on)).
  - unfold multi_area. simpl. lra.
  - reflexivity.
  - simpl. lra.
  - reflexivity.
  - simpl. lra.
Defined.
